(** * cnn-deblur: the data-preparation pipeline, embedded and verified

    The definitions below follow [datasets/dataset_utils.py],
    [cnn_deblur_reds.py] and [utils/preproc_cifar.py].  Tensors are nested
    lists, fallible TensorFlow operations return [option], and the
    [tf.data] operators are functions on lists threaded through the state
    that TensorFlow keeps between iterations (caches, iteration counters). *)

From Stdlib Require Import String Ascii.
From Stdlib Require Import List Arith ZArith Lia Bool QArith Qround Lqa Permutation.
Import ListNotations.
Close Scope Q_scope.
Open Scope nat_scope.

Set Implicit Arguments.

(** ** Small option monad, used wherever TensorFlow may raise *)

Definition obind {X Y : Type} (o : option X) (k : X -> option Y) : option Y :=
  match o with
  | Some x => k x
  | None => None
  end.

Notation "x <- e ;; k" := (obind e (fun x => k))
  (at level 61, e at next level, right associativity).

Fixpoint mapM {X Y : Type} (f : X -> option Y) (l : list X) : option (list Y) :=
  match l with
  | [] => Some []
  | x :: t => y <- f x ;; ys <- mapM f t ;; Some (y :: ys)
  end.

(** ** Slicing and chunking of lists *)

Module ListAux.

Section Slices.
  Variable X : Type.

  (** [l[start : start + len]] *)
Definition slice (start len : nat) (l : list X) : list X :=
    firstn len (skipn start l).

  (** [k] consecutive chunks of [n] elements each. *)
Fixpoint chunks (k n : nat) (l : list X) : list (list X) :=
    match k with
    | 0 => []
    | S k' => firstn n l :: chunks k' n (skipn n l)
    end.

End Slices.

End ListAux.

Import ListAux.

(** ** Patch Tiler and Patch Reconstructor ([datasets/dataset_utils.py]) *)

Module Tiler.

Section WithDtype.
  (** The component type of a pixel ([bfloat16] after decoding). *)
  Variable A : Type.

  (** A rank-3 tensor [H x W x C]: rows of pixels of channel values. *)
Definition image : Type := list (list (list A)).

Definition height (t : image) : nat := length t.
Definition width (t : image) : nat := length (hd [] t).
Definition depth (t : image) : nat := length (hd [] (hd [] t)).

Definition has_shape (h w c : nat) (t : image) : Prop :=
    length t = h /\
    Forall (fun row => length row = w /\ Forall (fun px => length px = c) row) t.

  (** The rectangle of [t] with top-left corner [(r * ph, c * pw)]. *)
Definition block (ph pw : nat) (t : image) (r c : nat) : image :=
    map (slice (c * pw) pw) (slice (r * ph) ph t).

  (** The twelve blocks of the 3 x 4 grid, row by row. *)
Definition grid_blocks (ph pw : nat) (t : image) : list image :=
    concat (map (fun r => map (fun c => block ph pw t r c) (seq 0 4)) (seq 0 3)).

  (** [tf.image.extract_patches] on a batch of one image with
      [sizes = strides = [1, ph, pw, 1]], unit rates and VALID padding:
      a grid of [H / ph] by [W / pw] patches, each flattened to a vector
      of [ph * pw * C] values.  A zero stride is rejected. *)
Definition tf_image_extract_patches (ph pw : nat) (t : image)
    : option (list (list (list A))) :=
    if (ph =? 0) || (pw =? 0) then None
    else Some (map (fun r =>
                 map (fun c => concat (concat (block ph pw t r c)))
                     (seq 0 (width t / pw)))
                   (seq 0 (height t / ph))).

  (** [tf.reshape] of a flat buffer to [(d0, d1, d2, d3)]; the element
      count has to agree. *)
Definition tf_reshape4 (d0 d1 d2 d3 : nat) (flat : list A)
    : option (list image) :=
    if length flat =? d0 * d1 * d2 * d3 then
      Some (map (fun p => map (chunks d2 d3) (chunks d1 (d2 * d3) p))
                (chunks d0 (d1 * d2 * d3) flat))
    else None.

Definition extract_patches (res : nat * nat) (img : image)
    : option (list image) :=
    patches <- tf_image_extract_patches (fst res / 3) (snd res / 4) img ;;
    tf_reshape4 12 (fst res / 3) (snd res / 4) 3 (concat (concat patches)).

  (** [tf.concat(ts, axis=1)]: the tensors are glued side by side; all
      other dimensions must agree and the list must not be empty. *)
Definition tf_concat_axis1 (ts : list image) : option image :=
    match ts with
    | [] => None
    | t0 :: _ =>
        if forallb (fun t => (height t =? height t0) && (depth t =? depth t0)) ts
        then Some (map (fun y => concat (map (fun t => nth y t []) ts))
                       (seq 0 (height t0)))
        else None
    end.

  (** [tf.concat(ts, axis=0)]: the tensors are stacked vertically. *)
Definition tf_concat_axis0 (ts : list image) : option image :=
    match ts with
    | [] => None
    | t0 :: _ =>
        if forallb (fun t => (width t =? width t0) && (depth t =? depth t0)) ts
        then Some (concat ts)
        else None
    end.

  (** [patch_size] is the grid shape; the row stride [4] is the literal
      of the source. *)
Definition reconstruct_image (image_patches : list image)
             (patch_size : nat * nat) : option image :=
    restored_image <-
      mapM (fun i =>
              row <- mapM (fun j => nth_error image_patches (i * 4 + j))
                          (seq 0 (snd patch_size)) ;;
              tf_concat_axis1 row)
           (seq 0 (fst patch_size)) ;;
    tf_concat_axis0 restored_image.

  (** [extract_patches_from_dataset]: unzip, tile both sides, un-batch
      ([flat_map] over [from_tensor_slices]) and zip again. *)
Definition extract_patches_from_dataset (res : nat * nat)
             (dataset : list (image * image)) : option (list (image * image)) :=
    datasetX <- mapM (extract_patches res) (map fst dataset) ;;
    datasetY <- mapM (extract_patches res) (map snd dataset) ;;
    Some (combine (concat datasetX) (concat datasetY)).

End WithDtype.

End Tiler.

(** Concrete tensors used to evaluate the tiler: pixel [(y, x)] holds
    [[100 y + 10 x; 100 y + 10 x + 1; 100 y + 10 x + 2]]. *)
Definition ramp (h w : nat) : Tiler.image nat :=
  map (fun y => map (fun x => map (fun c => 100 * y + 10 * x + c) (seq 0 3))
                    (seq 0 w))
      (seq 0 h).

(** [Reconstruct(Tile(I), grid)] as the two source functions compose. *)
Definition tile_then_reconstruct {A : Type} (res : nat * nat)
           (img : Tiler.image A) (grid : nat * nat) : option (Tiler.image A) :=
  patches <- Tiler.extract_patches res img ;;
  Tiler.reconstruct_image patches grid.

(** ** Shard Lister (the head of [load_dataset_from_gcs]) *)

Module Lister.

  Local Open Scope string_scope.

Definition startswith_sep (s : string) : bool :=
    match s with
    | String "/" _ => true
    | _ => false
    end.

Fixpoint endswith_sep (s : string) : bool :=
    match s with
    | EmptyString => false
    | String c EmptyString => Ascii.eqb c "/"
    | String _ r => endswith_sep r
    end.

  (** [os.path.join(a, b)] of [posixpath]. *)
Definition os_path_join (a b : string) : string :=
    if startswith_sep b then b
    else if String.eqb a "" || endswith_sep a then a ++ b
         else a ++ "/" ++ b.

  (** The bucket is the sequence of its blob names in the order in which
      the store lists them; [list_blobs] keeps the names that start with
      the prefix, in that order. *)
Definition bucket : Type := list string.

Definition list_blobs (b : bucket) (prefix : string) : list string :=
    filter (String.prefix prefix) b.

Definition tf_trainval (bucket_name prefix : string) (b : bucket) : list string :=
    map (fun f => os_path_join ("gs://" ++ bucket_name) f)
        (list_blobs b (prefix ++ "/train")).

Definition tf_test (bucket_name prefix : string) (b : bucket) : list string :=
    map (fun f => os_path_join ("gs://" ++ bucket_name) f)
        (list_blobs b (prefix ++ "/test")).

  (** Two listings of the same two shards. *)
Definition store_ab : bucket := ["reds/train/a.tfrecords"; "reds/train/b.tfrecords"].
Definition store_ba : bucket := ["reds/train/b.tfrecords"; "reds/train/a.tfrecords"].

End Lister.

(** ** The [tf.data] shuffle buffer, [skip], [take] and [batch] on lists *)

Module TfList.

Section Ops.
  Variable X : Type.

Fixpoint replace_nth (k : nat) (v : X) (l : list X) : list X :=
    match l, k with
    | [], _ => []
    | _ :: t, 0 => v :: t
    | x :: t, S k' => x :: replace_nth k' v t
    end.

  (** One emission of the shuffle buffer: slot [k] is handed out, the
      front element is moved into slot [k] and the front is dropped. *)
Definition pick (k : nat) (buf : list X) : option (X * list X) :=
    match buf with
    | [] => None
    | b :: _ => Some (nth k buf b, tl (replace_nth k b buf))
    end.

  (** The input is exhausted: the buffer is emptied slot by slot. *)
Fixpoint drain (fuel : nat) (draw : nat -> nat) (i : nat) (buf : list X)
    : list X :=
    match fuel with
    | 0 => []
    | S fuel' =>
        match pick (draw i mod length buf) buf with
        | None => []
        | Some (x, buf') => x :: drain fuel' draw (S i) buf'
        end
    end.

  (** The buffer is filled up to [buffer_size]; from then on every new
      input element first releases one randomly chosen slot. *)
Fixpoint shuffle_go (buffer_size : nat) (draw : nat -> nat) (i : nat)
           (buf input : list X) : list X :=
    match input with
    | [] => drain (length buf) draw i buf
    | x :: rest =>
        if length buf <? buffer_size
        then shuffle_go buffer_size draw i (buf ++ [x]) rest
        else match pick (draw i mod length buf) buf with
             | None => x :: shuffle_go buffer_size draw i buf rest
             | Some (y, buf') =>
                 y :: shuffle_go buffer_size draw (S i) (buf' ++ [x]) rest
             end
    end.

Definition shuffle (buffer_size : nat) (draw : nat -> nat) (input : list X)
    : list X :=
    shuffle_go buffer_size draw 0 [] input.

  (** [skip(count)]: a negative count skips everything. *)
Definition skip (count : Z) (l : list X) : list X :=
    if (count <? 0)%Z then [] else skipn (Z.to_nat count) l.

  (** [take(count)]: a negative count takes everything. *)
Definition take (count : Z) (l : list X) : list X :=
    if (count <? 0)%Z then l else firstn (Z.to_nat count) l.

Fixpoint batch_go (fuel n : nat) (l : list X) : list (list X) :=
    match fuel with
    | 0 => []
    | S fuel' =>
        match l with
        | [] => []
        | _ :: _ => firstn n l :: batch_go fuel' n (skipn n l)
        end
    end.

  (** [batch(batch_size)] with the default [drop_remainder=False]; a
      batch size below 1 is rejected. *)
Definition batch (batch_size : Z) (l : list X) : option (list (list X)) :=
    if (batch_size <=? 0)%Z then None
    else Some (batch_go (length l) (Z.to_nat batch_size) l).

End Ops.

End TfList.

(** ** Augmentor: the two paired flips *)

Module Augmentor.

Section WithDtype.
  Variable A : Type.

  (** [tf.image.flip_left_right]: the width axis is reversed. *)
Definition flip_left_right (t : Tiler.image A) : Tiler.image A :=
    map (@rev (list A)) t.

  (** [tf.image.flip_up_down]: the height axis is reversed. *)
Definition flip_up_down (t : Tiler.image A) : Tiler.image A := rev t.

Definition tf_cond {T : Type} (pred : bool) (true_fn false_fn : T) : T :=
    if pred then true_fn else false_fn.

  (** [u] is the value of [tf.random.uniform([], seed=seed)]; [u > 0.5]
      is [negb (u <= 1/2)]. *)
Definition _random_horizontal_flip (u : Q)
             (image_blur image_sharp : Tiler.image A)
    : Tiler.image A * Tiler.image A :=
    let do_flip := negb (Qle_bool u (1 # 2)) in
    let image_blur' := tf_cond do_flip (flip_left_right image_blur) image_blur in
    let image_sharp' := tf_cond do_flip (flip_left_right image_sharp) image_sharp in
    (image_blur', image_sharp').

Definition _random_vertical_flip (u : Q)
             (image_blur image_sharp : Tiler.image A)
    : Tiler.image A * Tiler.image A :=
    let do_flip := negb (Qle_bool u (1 # 2)) in
    let image_blur' := tf_cond do_flip (flip_up_down image_blur) image_blur in
    let image_sharp' := tf_cond do_flip (flip_up_down image_sharp) image_sharp in
    (image_blur', image_sharp').

End WithDtype.

End Augmentor.

(** ** Step counts of the consumer ([main] in [cnn_deblur_reds.py]) *)

Module Consumer.

  Local Open Scope Z_scope.

Definition TRAINVAL_SIZE : Z := 24000.
Definition TEST_SIZE : Z := 3000.
Definition VAL_SPLIT : Q := (1 # 8)%Q.

  (** [int(VAL_SPLIT * TRAINVAL_SIZE)] *)
Definition val_size : Z := Qfloor (VAL_SPLIT * inject_Z TRAINVAL_SIZE)%Q.
Definition train_size : Z := TRAINVAL_SIZE - val_size.

  (** [subset_size // batch_size]; Python raises on a zero divisor and
      rounds towards minus infinity, as [Z.div] does. *)
Definition steps_per_epoch (subset_size batch_size : Z) : option Z :=
    if batch_size =? 0 then None else Some (subset_size / batch_size).

Definition steps_train (BATCH_SIZE : Z) : option Z :=
    steps_per_epoch train_size BATCH_SIZE.
Definition steps_val (BATCH_SIZE : Z) : option Z :=
    steps_per_epoch val_size BATCH_SIZE.
Definition steps_test (BATCH_SIZE : Z) : option Z :=
    steps_per_epoch TEST_SIZE BATCH_SIZE.

End Consumer.

(** ** [tf.data] datasets with the state they keep between iterations *)

Module TfData.

  (** The stateful operators of [load_dataset_from_gcs]. *)
Inductive op : Type :=
  | SplitShuffle | TrainCache | ValCache
  | HorizontalFlip | VerticalFlip | TrainShuffle | ValShuffle.

Definition op_eqb (a b : op) : bool :=
    match a, b with
    | SplitShuffle, SplitShuffle | TrainCache, TrainCache
    | ValCache, ValCache | HorizontalFlip, HorizontalFlip
    | VerticalFlip, VerticalFlip | TrainShuffle, TrainShuffle
    | ValShuffle, ValShuffle => true
    | _, _ => false
    end.

  (** Random numbers.  With an integer seed the values are those of the
      seeded generator; with [seed=None] they come from the entropy of
      the run.  Both are indexed by operator, iteration and call. *)
Record generator : Type := {
    seeded_index : Z -> op -> nat -> nat -> nat;
    seeded_uniform : Z -> op -> nat -> nat -> Q
  }.

Record entropy : Type := {
    fresh_index : op -> nat -> nat -> nat;
    fresh_uniform : op -> nat -> nat -> Q
  }.

Definition index_stream (g : generator) (e : entropy) (seed : option Z)
    : op -> nat -> nat -> nat :=
    match seed with
    | Some s => seeded_index g s
    | None => fresh_index e
    end.

Definition uniform_stream (g : generator) (e : entropy) (seed : option Z)
    : op -> nat -> nat -> Q :=
    match seed with
    | Some s => seeded_uniform g s
    | None => fresh_uniform e
    end.

Section WithElem.
  (** The element type held by [cache()]. *)
  Variable P : Type.

Record tf_state : Type := {
    caches : op -> option (list P);
    iterations : op -> nat
  }.

Definition initial_state : tf_state :=
    {| caches := fun _ => None; iterations := fun _ => 0 |}.

Definition bump (o : op) (s : tf_state) : tf_state :=
    {| caches := caches s;
       iterations := fun o' => if op_eqb o' o then S (iterations s o')
                               else iterations s o' |}.

Definition fill (o : op) (l : list P) (s : tf_state) : tf_state :=
    {| caches := fun o' => if op_eqb o' o then Some l else caches s o';
       iterations := iterations s |}.

  (** One full iteration over a dataset: its elements and the state left
      behind, or [None] when the iteration raises. *)
Definition dataset (X : Type) : Type := tf_state -> option (list X * tf_state).

Definition from_list {X : Type} (l : list X) : dataset X :=
    fun s => Some (l, s).

Definition ds_map {X Y : Type} (f : X -> option Y) (d : dataset X) : dataset Y :=
    fun s => r <- d s ;; l <- mapM f (fst r) ;; Some (l, snd r).

  (** [map] of a function that calls a seeded random operator once per
      element: call [n] of iteration [k] sees [u k n]. *)
Definition ds_map_random {X Y : Type} (o : op) (u : nat -> nat -> Q)
             (f : Q -> X -> Y) (d : dataset X) : dataset Y :=
    fun s =>
      r <- d s ;;
      let k := iterations (snd r) o in
      Some (map (fun nx => f (u k (fst nx)) (snd nx))
                (combine (seq 0 (length (fst r))) (fst r)),
            bump o (snd r)).

Definition ds_shuffle {X : Type} (o : op) (buffer_size : nat)
             (draw : nat -> nat -> nat) (reshuffle_each_iteration : bool)
             (d : dataset X) : dataset X :=
    fun s =>
      r <- d s ;;
      let k := if reshuffle_each_iteration then iterations (snd r) o else 0 in
      Some (TfList.shuffle buffer_size (draw k) (fst r), bump o (snd r)).

Definition ds_skip {X : Type} (count : Z) (d : dataset X) : dataset X :=
    fun s => r <- d s ;; Some (TfList.skip count (fst r), snd r).

Definition ds_take {X : Type} (count : Z) (d : dataset X) : dataset X :=
    fun s => r <- d s ;; Some (TfList.take count (fst r), snd r).

  (** [cache()]: the first iteration runs the input and keeps its
      elements; later iterations read the kept elements. *)
Definition ds_cache (o : op) (d : dataset P) : dataset P :=
    fun s =>
      match caches s o with
      | Some l => Some (l, s)
      | None => r <- d s ;; Some (fst r, fill o (fst r) (snd r))
      end.

  (** [batch(batch_size)] is rejected when the dataset is built if the
      size is below 1. *)
Definition ds_batch {X : Type} (batch_size : Z) (d : dataset X)
    : option (dataset (list X)) :=
    if (batch_size <=? 0)%Z then None
    else Some (fun s => r <- d s ;;
                        b <- TfList.batch batch_size (fst r) ;;
                        Some (b, snd r)).

  (** [repeat(count)] for a count that is not negative. *)
Fixpoint ds_repeat {X : Type} (count : nat) (d : dataset X) : dataset X :=
    fun s =>
      match count with
      | 0 => Some ([], s)
      | S c => r <- d s ;;
               r' <- ds_repeat c d (snd r) ;;
               Some (fst r ++ fst r', snd r')
      end.

End WithElem.

End TfData.

(** ** [load_dataset_from_gcs] *)

Module Pipeline.

Import TfData.

Section LoadDataset.
  (** Pixel component type ([bfloat16]) and serialized records. *)
  Variable A : Type.
  Variable Proto : Type.

  (** A degraded image and its clean counterpart. *)
Definition image_pair : Type := Tiler.image A * Tiler.image A.

  (** The collaborators: the records of each shard file ([None] when the
      file cannot be read), the order in which parallel reads deliver the
      records of several files, record parsing ([tf.io], [tf.image]) and
      the random numbers. *)
  Variable shard : string -> option (list Proto).
  Variable interleave : list (list Proto) -> list Proto.
  Variable _parse_image_fn : nat * nat -> Proto -> option image_pair.
  Variable g : generator.
  Variable e : entropy.

  (** The bucket named by [project_id] and [bucket_name], and the other
      arguments of the function. *)
  Variable b : Lister.bucket.
  Variables bucket_name prefix : string.
  Variable res : nat * nat.
  Variable val_size batch_size : Z.
  Variable epochs : nat.
  Variable seed : option Z.
  Variable use_patches : bool.

Definition BUF : nat := 50.

Definition TFRecordDataset (filenames : list string) : dataset image_pair Proto :=
    fun s => recs <- mapM shard filenames ;; Some (interleave recs, s).

Definition parsed (filenames : list string) : dataset image_pair image_pair :=
    ds_map (_parse_image_fn res) (TFRecordDataset filenames).

Definition extract_patches_from_dataset (d : dataset image_pair image_pair)
    : dataset image_pair image_pair :=
    fun s => r <- d s ;;
             out <- Tiler.extract_patches_from_dataset res (fst r) ;;
             Some (out, snd r).

  (** [trainval_data] and [test_data] before the split. *)
Definition trainval_data : dataset image_pair image_pair :=
    let d := parsed (Lister.tf_trainval bucket_name prefix b) in
    if use_patches then extract_patches_from_dataset d else d.

Definition test_data : dataset image_pair image_pair :=
    parsed (Lister.tf_test bucket_name prefix b).

  (** From here on the stages are stated over any element type [P] and
      any input dataset, so that the Splitter can also be run on a corpus
      of indices. *)
  Section Stages.
    Variable P : Type.
    Variable source : dataset P P.

    (** Shuffle once and perform the train-validation split. *)
Definition shuffled : dataset P P :=
      ds_shuffle SplitShuffle 50 (index_stream g e seed SplitShuffle) false source.

Definition train_cached : dataset P P :=
      ds_cache TrainCache (ds_skip val_size shuffled).

Definition val_cached : dataset P P :=
      ds_cache ValCache (ds_take val_size shuffled).

    (** The Splitter: the contents of the two cached subsets. *)
Definition Splitter (s : tf_state P) : option (list P * list P) :=
      tr <- train_cached s ;;
      va <- val_cached (snd tr) ;;
      Some (fst tr, fst va).

    (** Reshuffle the validation set. *)
Definition val_reshuffled : dataset P P :=
      ds_shuffle ValShuffle BUF (index_stream g e seed ValShuffle) true val_cached.
  End Stages.

  (** Augmentation of the training set and its reshuffle. *)
Definition train_augmented (source : dataset image_pair image_pair) : dataset image_pair image_pair :=
    ds_map_random VerticalFlip (uniform_stream g e seed VerticalFlip)
      (fun u p => Augmentor._random_vertical_flip u (fst p) (snd p))
      (ds_map_random HorizontalFlip (uniform_stream g e seed HorizontalFlip)
         (fun u p => Augmentor._random_horizontal_flip u (fst p) (snd p))
         (train_cached source)).

Definition train_reshuffled (source : dataset image_pair image_pair) : dataset image_pair image_pair :=
    ds_shuffle TrainShuffle BUF (index_stream g e seed TrainShuffle) true
               (train_augmented source).

  (** The three returned datasets [(train_data, test_data, val_data)];
      [None] when building them raises.  The test set is batched only
      without patches.  The two [prefetch] calls of the source discard
      their results. *)
Definition load_dataset_from_gcs
    : option (dataset image_pair (list image_pair)
              * (dataset image_pair image_pair + dataset image_pair (list image_pair))
              * dataset image_pair (list image_pair)) :=
    train_batched <- ds_batch batch_size (train_reshuffled trainval_data) ;;
    val_batched <- ds_batch batch_size (val_reshuffled trainval_data) ;;
    test_out <- (if negb use_patches
                 then option_map inr (ds_batch batch_size test_data)
                 else Some (inl test_data)) ;;
    Some (ds_repeat epochs train_batched, test_out, ds_repeat epochs val_batched).

End LoadDataset.

End Pipeline.

(** ** Vocabulary for statements about the split and the epochs *)

Module Epochs.

Import TfData.

Section Vocabulary.
  Variable A : Type.
  Variable P : Type.

  (** The one permutation of the corpus that a run works with: the
      split shuffle never reshuffles, so it draws from iteration [0]. *)
Definition permuted (g : generator) (e : entropy) (seed : option Z)
             (corpus : list P) : list P :=
    TfList.shuffle 50 (index_stream g e seed SplitShuffle 0) corpus.

  (** [q] is [p] with both images flipped the same way: left-right or
      not, then up-down or not. *)
Definition flipped_copy (p q : Pipeline.image_pair A) : Prop :=
    exists h v : bool,
      let f := fun t : Tiler.image A =>
                 Augmentor.tf_cond v
                   (Augmentor.flip_up_down
                      (Augmentor.tf_cond h (Augmentor.flip_left_right t) t))
                   (Augmentor.tf_cond h (Augmentor.flip_left_right t) t) in
      q = (f (fst p), f (snd p)).

  (** The batches of one training epoch hold one flipped copy of every
      member of [T], in some order, and none of them is empty. *)
Definition augmented_epoch (T : list (Pipeline.image_pair A))
             (batches : list (list (Pipeline.image_pair A))) : Prop :=
    (exists l, Forall2 flipped_copy T l /\ Permutation (concat batches) l) /\
    Forall (fun b => b <> []) batches.

  (** The batches of one validation epoch hold the members of [V], and
      none of them is empty. *)
Definition plain_epoch (V : list P) (batches : list (list P)) : Prop :=
    Permutation (concat batches) V /\ Forall (fun b => b <> []) batches.

  (** Each cache is either still empty or holds its subset. *)
Definition settled (T V : list P) (s : tf_state P) : Prop :=
    (caches s TrainCache = None \/ caches s TrainCache = Some T) /\
    (caches s ValCache = None \/ caches s ValCache = Some V).

  (** Iterations of the split shuffle caused by [epochs] passes over a
      cache with content [c]. *)
Definition fills (epochs : nat) (c : option (list P)) : nat :=
    match c with
    | None => if epochs =? 0 then 0 else 1
    | Some _ => 0
    end.

End Vocabulary.

End Epochs.

(** ** A small concrete world used to evaluate the pipeline *)

Module Scenario.

Import TfData.
Local Open Scope string_scope.

Definition tint (k : nat) (t : Tiler.image nat) : Tiler.image nat :=
    map (map (map (Nat.add (1000 * k)))) t.

  (** A record is already a decoded pair here; parsing is the identity. *)
Definition sample (k : nat) : Pipeline.image_pair nat :=
    (tint k (ramp 3 4), tint (k + 500) (ramp 3 4)).

Definition records : list (Pipeline.image_pair nat) :=
    [sample 0; sample 1; sample 2; sample 3].

Definition shard (name : string) : option (list (Pipeline.image_pair nat)) :=
    Some records.

Definition parse (res : nat * nat) (p : Pipeline.image_pair nat)
    : option (Pipeline.image_pair nat) := Some p.

Definition gen : generator :=
    {| seeded_index := fun s _ k i => Z.to_nat s + k + i;
       seeded_uniform := fun _ _ k n => inject_Z (Z.of_nat ((k + n) mod 2)) |}.

Definition ent : entropy :=
    {| fresh_index := fun _ _ i => i;
       fresh_uniform := fun _ _ _ => 0%Q |}.

  (** A bucket with one training shard, and a bucket with none. *)
Definition one_shard : Lister.bucket := ["reds/train/a.tfrecords"].
Definition no_shard : Lister.bucket := [].

End Scenario.

(** ** Offline corpus construction ([utils/preproc_cifar.py]) *)

Module Cifar.

(** The random generator objects that the two build tasks can reach:
    the [RandomState(42)] made by [preproc_cifar] and numpy's global one. *)
Inductive ref : Type := Rnd42 | NpGlobal.

(** A [RandomState]: its stream of samples of [[0, 1)] and how many of
    them have been handed out. *)
Record RandomState : Type := {
  samples : nat -> Q;
  consumed : nat
}.

Definition heap : Type := ref -> RandomState.

Definition ref_eqb (a b : ref) : bool :=
  match a, b with
  | Rnd42, Rnd42 | NpGlobal, NpGlobal => true
  | _, _ => false
  end.

(** [r.uniform(low, high)]: the next sample, scaled; the object [r] is
    advanced in place. *)
Definition uniform (r : ref) (low high : Q) (h : heap) : Q * heap :=
  let st := h r in
  ((low + (high - low) * samples st (consumed st))%Q,
   fun r' => if ref_eqb r' r
             then {| samples := samples st; consumed := S (consumed st) |}
             else h r').

Inductive worker : Type := TrainBuild | TestBuild.

Section WithImages.
Variable Img : Type.

(** numpy and OpenCV results, kept as the calls that produce them. *)
Inductive array : Type :=
| Target (img : Img)
| GaussianBlur (src : Img) (sigmaX : Q)
| Div255 (a : array).

(** [gauss_blur]: with [rnd=None] the global generator is used. *)
Definition gauss_blur (rnd : option ref) (img : Img) (h : heap) : array * heap :=
  let r := match rnd with Some r => r | None => NpGlobal end in
  let (std_dev, h') := uniform r 0 3 h in
  (GaussianBlur img std_dev, h').

(** [preproc_subset] run on its own: the loop over [range(subset_size)]. *)
Fixpoint preproc_subset (target : list Img) (rnd : option ref) (h : heap)
  : list array * heap :=
  match target with
  | [] => ([], h)
  | img :: rest =>
      let (p, h1) := gauss_blur rnd img h in
      let (ps, h2) := preproc_subset rest rnd h1 in
      (p :: ps, h2)
  end.

(** A submitted call of [preproc_subset]: the images still to blur, the
    part of [predictor] already written, and its [rnd] argument. *)
Record task : Type := {
  todo : list Img;
  predictor : list array;
  rnd : option ref
}.

(** One loop iteration of a task. *)
Definition task_step (t : task) (h : heap) : task * heap :=
  match todo t with
  | [] => (t, h)
  | img :: rest =>
      let (p, h') := gauss_blur (rnd t) img h in
      ({| todo := rest; predictor := predictor t ++ [p]; rnd := rnd t |}, h')
  end.

Fixpoint finish (fuel : nat) (t : task) (h : heap) : task * heap :=
  match fuel with
  | 0 => (t, h)
  | S fuel' => let (t', h') := task_step t h in finish fuel' t' h'
  end.

(** The pool of two workers: the schedule names the worker that runs
    its next loop iteration; when the schedule ends the [with] block
    waits for whatever is left of both tasks. *)
Fixpoint run_pool (schedule : list worker) (tr te : task) (h : heap)
  : task * task * heap :=
  match schedule with
  | [] =>
      let (tr', h1) := finish (length (todo tr)) tr h in
      let (te', h2) := finish (length (todo te)) te h1 in
      (tr', te', h2)
  | TrainBuild :: rest =>
      let (tr', h') := task_step tr h in run_pool rest tr' te h'
  | TestBuild :: rest =>
      let (te', h') := task_step te h in run_pool rest tr te' h'
  end.

Record outputs : Type := {
  trainX : option (list array);
  trainY : option (list array);
  testX : option (list array);
  testY : option (list array)
}.

(** The body of the [as_completed] loop for one finished future. *)
Definition collect (train_set test_set : list Img) (tr te : task)
           (o : outputs) (future : worker) : outputs :=
  match future with
  | TrainBuild =>
      {| trainX := Some (predictor tr); trainY := Some (map Target train_set);
         testX := testX o; testY := testY o |}
  | TestBuild =>
      {| trainX := trainX o; trainY := trainY o;
         testX := Some (predictor te); testY := Some (map Target test_set) |}
  end.

Definition astype_float_div255 (a : option (list array)) : option (list array) :=
  option_map (map Div255) a.

(** [preproc_cifar]: [sample42] is the sample stream of
    [RandomState(42)], [np_global] the state of numpy's own generator;
    [schedule] and [completed] are the interleaving of the two workers
    and the order in which [as_completed] yields the two futures. *)
Definition preproc_cifar (train_set test_set : list Img)
           (sample42 : nat -> Q) (np_global : RandomState)
           (schedule completed : list worker) (normalize : bool) : outputs :=
  let h0 : heap := fun r => match r with
                            | Rnd42 => {| samples := sample42; consumed := 0 |}
                            | NpGlobal => np_global
                            end in
  let futureTrain := {| todo := train_set; predictor := []; rnd := Some Rnd42 |} in
  let futureTest := {| todo := test_set; predictor := []; rnd := Some Rnd42 |} in
  let '(tr, te, _) := run_pool schedule futureTrain futureTest h0 in
  let o := fold_left (collect train_set test_set tr te) completed
                     {| trainX := None; trainY := None;
                        testX := None; testY := None |} in
  if normalize
  then {| trainX := astype_float_div255 (trainX o);
          trainY := astype_float_div255 (trainY o);
          testX := astype_float_div255 (testX o);
          testY := astype_float_div255 (testY o) |}
  else o.

End WithImages.

(** Sample streams used to evaluate the pool. *)
Definition tenths (n : nat) : Q := inject_Z (Z.of_nat n) / 10.

Definition idle : RandomState := {| samples := fun _ => 0%Q; consumed := 0 |}.

End Cifar.

(** ** Further vocabulary: crops, and what a symbolic array was made from *)

Module Crop.

Section WithDtype.
Variable A : Type.

(** The top-left corner of [t]: its first [h] rows, cut to [w] columns. *)
Definition top_left (h w : nat) (t : Tiler.image A) : Tiler.image A :=
  map (firstn w) (firstn h t).

End WithDtype.

End Crop.

(** ** Further concrete worlds *)

Module Scenario2.

Local Open Scope string_scope.

(** A bucket with one training shard and one test shard. *)
Definition both_shards : Lister.bucket :=
  ["reds/train/a.tfrecords"; "reds/test/a.tfrecords"].



End Scenario2.

(** A bucket whose blob names start with the separator. *)
Definition rooted_store : Lister.bucket :=
  ["/train/a.tfrecords"%string; "/test/a.tfrecords"%string].

(** ** What a symbolic array was made from *)

Module CifarSpec.

Import Cifar.

Section WithImages.
Variable Img : Type.

(** The image a blurred array was computed from. *)
Definition source_of (a : array Img) : option Img :=
  match a with
  | GaussianBlur src _ => Some src
  | _ => None
  end.

(** The standard deviation a blurred array was computed with. *)
Definition sigma_of (a : array Img) : option Q :=
  match a with
  | GaussianBlur _ sigmaX => Some sigmaX
  | _ => None
  end.

(** Sample [k] of a stream as [uniform(0, 3)] returns it. *)
Definition scaled (sample : nat -> Q) (k : nat) : Q := (0 + (3 - 0) * sample k)%Q.

(** What holds of the two tasks and the shared generator at every point
    of a run of the pool: both tasks draw from the [RandomState(42)]
    object, which has handed out [c] samples; what a task has written,
    followed by what it still has to blur, is its subset in order; and
    the standard deviations used so far are the first [c] samples. *)
Definition pool_invariant (first_set second_set : list Img)
           (sample42 : nat -> Q) (c : nat) (t1 t2 : task Img) (h : heap) : Prop :=
  samples (h Rnd42) = sample42 /\
  consumed (h Rnd42) = c /\
  rnd t1 = Some Rnd42 /\ rnd t2 = Some Rnd42 /\
  map source_of (predictor t1) ++ map Some (todo t1) = map Some first_set /\
  map source_of (predictor t2) ++ map Some (todo t2) = map Some second_set /\
  Permutation (map sigma_of (predictor t1) ++ map sigma_of (predictor t2))
              (map (fun k => Some (scaled sample42 k)) (seq 0 c)).

End WithImages.

(** The generator objects as [preproc_cifar] finds them: a fresh
    [RandomState(42)] and numpy's global generator. *)
Definition initial_heap (sample42 : nat -> Q) (np_global : RandomState) : heap :=
  fun r => match r with
           | Rnd42 => {| samples := sample42; consumed := 0 |}
           | NpGlobal => np_global
           end.


End CifarSpec.

(** ** The residual U-Net of [models/res_unet.py], as Keras builds it

    The functional API works on symbolic tensors: calling a layer
    computes the shape of its output and raises when the shapes do not
    fit, and [Model] raises when two layers carry the same name.  A
    symbolic tensor is its shape [(H, W, C)] (the batch axis is left
    out); building threads the names of the layers created so far.
    Layers without a [name] argument ([Input], [Add], [concatenate]) get
    fresh names from Keras and are not tracked. *)

From Stdlib Require Import DecimalString.

Module ResUNet.

Definition tensor : Type := nat * nat * nat.

Definition graph (X : Type) : Type := list string -> option (X * list string).

Definition gret {X : Type} (x : X) : graph X := fun names => Some (x, names).

Definition gbind {X Y : Type} (m : graph X) (k : X -> graph Y) : graph Y :=
  fun names =>
    match m names with
    | Some (x, names') => k x names'
    | None => None
    end.

Notation "x <-- e ;;; k" := (gbind e (fun x => k))
  (at level 61, e at next level, right associativity).

(** A Python expression that may raise, such as [filters_num[0]]. *)
Definition lift {X : Type} (o : option X) : graph X :=
  fun names => option_map (fun x => (x, names)) o.

(** ['{0:d}'.format(n)] *)
Definition format_d (n : nat) : string := NilEmpty.string_of_uint (Nat.to_uint n).

(** Output length of a strided window with [padding='same']. *)
Definition conv_output_length (input_length stride : nat) : nat :=
  (input_length + stride - 1) / stride.

Definition Conv2D (filters kernel_size strides : nat) (name : string)
           (x : tensor) : graph tensor :=
  fun names =>
    if strides =? 0 then None
    else let '(h, w, _) := x in
         Some ((conv_output_length h strides, conv_output_length w strides, filters),
               names ++ [name]).

Definition Conv2DTranspose (filters kernel_size strides : nat) (name : string)
           (x : tensor) : graph tensor :=
  fun names =>
    if strides =? 0 then None
    else let '(h, w, _) := x in
         Some ((h * strides, w * strides, filters), names ++ [name]).

Definition BatchNormalization (name : string) (x : tensor) : graph tensor :=
  fun names => Some (x, names ++ [name]).

Definition Activation (activation name : string) (x : tensor) : graph tensor :=
  fun names => Some (x, names ++ [name]).

(** One axis of an element-wise merge: equal lengths, or one of them 1. *)
Definition broadcast (i j : nat) : option nat :=
  if i =? j then Some i
  else if i =? 1 then Some j
  else if j =? 1 then Some i
  else None.

Definition Add (x y : tensor) : graph tensor :=
  let '(h1, w1, c1) := x in
  let '(h2, w2, c2) := y in
  lift (h <- broadcast h1 h2 ;; w <- broadcast w1 w2 ;; c <- broadcast c1 c2 ;;
        Some (h, w, c)).

(** [concatenate([a, b])] along the channel axis: the other axes must
    agree exactly. *)
Definition concatenate (a b : tensor) : graph tensor :=
  let '(h1, w1, c1) := a in
  let '(h2, w2, c2) := b in
  lift (if (h1 =? h2) && (w1 =? w2) then Some (h1, w1, c1 + c2) else None).

(** The loop over [zip(kernels, filters_num, strides)]; [always_bn] is
    false only for the initial block, which skips batch normalization
    and ReLU in front of its first convolution. *)
Fixpoint conv_loop (layer_idx : nat) (is_initial : bool) (n : nat)
         (layers : list (nat * nat * nat)) (x : tensor) : graph tensor :=
  match layers with
  | [] => gret x
  | (krnl, fltr, strd) :: rest =>
      let layer_suffix := (format_d layer_idx ++ "_" ++ format_d n)%string in
      x1 <-- (if negb (is_initial && (n =? 0))
              then (xb <-- BatchNormalization ("bn" ++ layer_suffix)%string x ;;;
                    Activation "relu"%string ("relu" ++ layer_suffix)%string xb)
              else gret x) ;;;
      x2 <-- Conv2D fltr krnl strd
                    ("conv" ++ format_d layer_idx ++ "_" ++ format_d n)%string x1 ;;;
      conv_loop layer_idx is_initial (S n) rest x2
  end.

Definition zip3 (kernels filters_num strides : list nat) : list (nat * nat * nat) :=
  combine (combine kernels filters_num) strides.

Definition ResUDown (kernels filters_num strides : list nat) (in_layer : tensor)
           (layer_idx : nat) (is_initial : bool) : graph tensor :=
  x <-- conv_loop layer_idx is_initial 0 (zip3 kernels filters_num strides)
                  in_layer ;;;
  f0 <-- lift (nth_error filters_num 0) ;;;
  s0 <-- lift (nth_error strides 0) ;;;
  res_layer <-- Conv2D f0 1 s0 ("res_conv" ++ format_d layer_idx)%string in_layer ;;;
  Add x res_layer.

Definition ResUUp (kernels filters_num strides : list nat)
           (in_layer concat_layer : tensor) (layer_idx : nat) : graph tensor :=
  f0 <-- lift (nth_error filters_num 0) ;;;
  x <-- Conv2DTranspose f0 3 2 ("upsamp" ++ format_d layer_idx)%string in_layer ;;;
  x <-- concatenate concat_layer x ;;;
  res_layer <-- Conv2DTranspose f0 1 1 ("res_upsamp" ++ format_d layer_idx)%string x ;;;
  x <-- conv_loop layer_idx false 0 (zip3 kernels filters_num strides) x ;;;
  Add x res_layer.

Definition ResUOut (in_layer : tensor) : graph tensor :=
  x <-- Conv2D 3 1 1 "conv_out"%string in_layer ;;;
  Activation "sigmoid"%string "sigmoid"%string x.

Fixpoint unique_names (names : list string) : bool :=
  match names with
  | [] => true
  | n :: rest => negb (existsb (String.eqb n) rest) && unique_names rest
  end.

(** [Model(inputs=visible, outputs=output)]: layer names must be unique. *)
Definition Model (output : tensor) : graph tensor :=
  fun names => if unique_names names then Some (output, names) else None.

(** [ResUNet16.__init__]: the shape of the output of [self.model] and
    the names of its layers, or [None] when building raises.  The base
    class [ConvNet] is not part of the sources; its constructor runs
    before anything is built here. *)
Definition ResUNet16 (input_shape : tensor) : option (tensor * list string) :=
  (let visible := input_shape in
   conv1 <-- ResUDown [3; 3] [64; 64] [1; 1] visible 1 true ;;;
   conv2 <-- ResUDown [3; 3] [128; 128] [2; 1] conv1 2 false ;;;
   conv3 <-- ResUDown [3; 3] [256; 256] [2; 1] conv2 3 false ;;;
   conv4 <-- ResUDown [3; 3] [512; 512] [2; 1] conv3 4 false ;;;
   conv5 <-- ResUUp [3; 3] [256; 256] [1; 1] conv4 conv3 6 ;;;
   conv6 <-- ResUUp [3; 3] [128; 128] [1; 1] conv5 conv2 7 ;;;
   conv7 <-- ResUUp [3; 3] [64; 64] [1; 1] conv6 conv1 8 ;;;
   output <-- ResUOut conv7 ;;;
   Model output) [].

(** ['{p}{layer_idx}{q}'] *)
Definition layer_name (p : string) (layer_idx : nat) (q : string) : string :=
  (p ++ format_d layer_idx ++ q)%string.

(** ['{p}{layer_idx}'] *)
Definition block_name (p : string) (layer_idx : nat) : string :=
  (p ++ format_d layer_idx)%string.

(** The layer names a two-convolution block adds, in order. *)
Definition down_names (layer_idx : nat) (is_initial : bool) : list string :=
  (if is_initial then []
   else [layer_name "bn" layer_idx "_0"; layer_name "relu" layer_idx "_0"])
  ++ [layer_name "conv" layer_idx "_0";
      layer_name "bn" layer_idx "_1"; layer_name "relu" layer_idx "_1";
      layer_name "conv" layer_idx "_1";
      block_name "res_conv" layer_idx].

Definition up_names (layer_idx : nat) : list string :=
  [block_name "upsamp" layer_idx; block_name "res_upsamp" layer_idx;
   layer_name "bn" layer_idx "_0"; layer_name "relu" layer_idx "_0";
   layer_name "conv" layer_idx "_0";
   layer_name "bn" layer_idx "_1"; layer_name "relu" layer_idx "_1";
   layer_name "conv" layer_idx "_1"].

End ResUNet.

(** * Verification *)

(** ** Auxiliary facts on lists *)

Module ListFacts.

Section Slices.
  Variable X : Type.

Lemma firstn_plus (a b : nat) (l : list X) :
    firstn (a + b) l = firstn a l ++ firstn b (skipn a l).
  Proof.
    revert l; induction a as [|a IH]; intros [|x l]; simpl; trivial.
    - now rewrite firstn_nil.
    - now rewrite IH.
  Qed.

Lemma skipn_plus (a b : nat) (l : list X) :
    skipn (a + b) l = skipn b (skipn a l).
  Proof.
    revert l; induction a as [|a IH]; intros [|x l]; simpl; trivial.
    now rewrite skipn_nil.
  Qed.

Lemma chunks_length (k n : nat) (l : list X) : length (chunks k n l) = k.
  Proof. revert l; induction k; intros; simpl; auto. Qed.

Lemma chunks_concat (n : nat) (ls : list (list X)) :
    Forall (fun l => length l = n) ls ->
    chunks (length ls) n (concat ls) = ls.
  Proof.
    induction 1 as [|l ls Hl _ IH]; simpl; trivial.
    rewrite firstn_app, skipn_app, Hl, Nat.sub_diag; simpl.
    rewrite firstn_all2, skipn_all2 by lia.
    rewrite app_nil_r; simpl. now rewrite IH.
  Qed.

Lemma concat_length_const (n : nat) (ls : list (list X)) :
    Forall (fun l => length l = n) ls ->
    length (concat ls) = length ls * n.
  Proof.
    induction 1 as [|l ls Hl _ IH]; simpl; trivial.
    rewrite length_app, IH, Hl; lia.
  Qed.

  (** Gluing [k] consecutive slices of width [n] gives back the prefix. *)
Lemma concat_slices (n k : nat) (l : list X) :
    concat (map (fun c => slice (c * n) n l) (seq 0 k)) = firstn (k * n) l.
  Proof.
    induction k as [|k IH]; trivial.
    rewrite seq_S, map_app, concat_app, IH; simpl.
    rewrite app_nil_r. unfold slice.
    replace (n + k * n) with (k * n + n) by lia.
    now rewrite firstn_plus.
  Qed.

Lemma nth_skipn (d : X) (a y : nat) (l : list X) :
    nth y (skipn a l) d = nth (a + y) l d.
  Proof.
    revert l; induction a as [|a IH]; intros [|x l]; simpl; trivial.
    now destruct y.
  Qed.

Lemma map_nth_seq (d : X) (n : nat) (l : list X) :
    n <= length l ->
    map (fun y => nth y l d) (seq 0 n) = firstn n l.
  Proof.
    revert l; induction n as [|n IH]; intros [|x l] Hn; simpl in *; trivial;
      try lia.
    f_equal. rewrite <- seq_shift, map_map. apply IH; lia.
  Qed.

Lemma slice_length (a n : nat) (l : list X) :
    a + n <= length l -> length (slice a n l) = n.
  Proof.
    intros H; unfold slice. rewrite length_firstn, length_skipn; lia.
  Qed.

Lemma nth_slice (d : X) (a n y : nat) (l : list X) :
    y < n -> nth y (slice a n l) d = nth (a + y) l d.
  Proof.
    intros Hy; unfold slice. rewrite nth_firstn.
    apply Nat.ltb_lt in Hy; rewrite Hy. apply nth_skipn.
  Qed.

Lemma Forall_slice (P : X -> Prop) (a n : nat) (l : list X) :
    Forall P l -> Forall P (slice a n l).
  Proof.
    intros H. unfold slice.
    assert (Hs : Forall P (skipn a l)).
    { clear n. revert l H; induction a; intros l H; simpl; trivial.
      destruct H; auto. }
    revert Hs. generalize (skipn a l). clear.
    induction n; intros l H; simpl; [constructor|].
    destruct H; constructor; auto.
  Qed.

  (** Cutting every row into [k] pieces of width [n] and gluing the
      pieces of each row again is the identity on [k * n]-wide rows. *)
Lemma glue_rows (k n : nat) (R : list (list X)) :
    Forall (fun row => length row = k * n) R ->
    map (fun y => concat (map (fun c => nth y (map (slice (c * n) n) R) [])
                              (seq 0 k)))
        (seq 0 (length R)) = R.
  Proof.
    induction 1 as [|row R Hrow _ IH]; trivial.
    cbn [length seq map]. f_equal.
    - cbn [nth]. rewrite concat_slices. apply firstn_all2; lia.
    - rewrite <- seq_shift, map_map. exact IH.
  Qed.

End Slices.

Lemma concat_concat_map (X : Type) (lll : list (list (list X))) :
  concat (concat lll) = concat (map (@concat X) lll).
Proof.
  induction lll as [|ll lll IH]; simpl; trivial.
  now rewrite concat_app, IH.
Qed.

End ListFacts.

Import ListFacts.

(** ** Patch Tiler and Reconstructor *)

Module TilerFacts.
Import Tiler.

Section WithDtype.
  Variable A : Type.
  Implicit Types t B : image A.

Lemma shape_dims h w c t :
    has_shape h w c t -> 0 < h -> 0 < w ->
    height t = h /\ width t = w /\ depth t = c.
  Proof.
    intros [Hh Hrows] Hpos Wpos. unfold height, width, depth.
    destruct t as [|row t]; simpl in *; [lia|].
    inversion Hrows as [|? ? [Hw Hpx] _]; subst.
    destruct row as [|px row]; simpl in *; [lia|].
    inversion Hpx; subst. auto.
  Qed.

Lemma slice_shape h w c t a n :
    has_shape h w c t -> a + n <= h -> has_shape n w c (slice a n t).
  Proof.
    intros [Hh Hrows] Hle; split.
    - apply slice_length; lia.
    - now apply Forall_slice.
  Qed.

Lemma block_shape h w c t ph pw r k :
    has_shape h w c t -> r * ph + ph <= h -> k * pw + pw <= w ->
    has_shape ph pw c (block ph pw t r k).
  Proof.
    intros Ht Hr Hk. destruct (slice_shape (r * ph) ph Ht Hr)
      as [Hlen Hrows].
    unfold block; split.
    - now rewrite length_map.
    - apply Forall_map. revert Hrows; apply Forall_impl.
      intros row [Hw Hpx]; split.
      + apply slice_length; lia.
      + now apply Forall_slice.
  Qed.

  (** Flattening a block and reshaping it gives the block back. *)
Lemma reshape_block h w c B :
    has_shape h w c B ->
    map (chunks w c) (chunks h (w * c) (concat (concat B))) = B.
  Proof.
    intros [Hh Hrows]. rewrite concat_concat_map.
    rewrite <- Hh, <- (length_map (@concat _) B), chunks_concat.
    - rewrite map_map. clear Hh.
      induction Hrows as [|row B [Hw Hpx] _ IH]; simpl; trivial.
      rewrite IH. f_equal. rewrite <- Hw. now apply chunks_concat.
    - apply Forall_map. revert Hrows; apply Forall_impl.
      intros row [Hw Hpx]. rewrite (concat_length_const Hpx). now rewrite Hw.
  Qed.

Lemma flat_block_length h w c B :
    has_shape h w c B -> length (concat (concat B)) = h * w * c.
  Proof.
    intros [Hh Hrows]. rewrite concat_concat_map.
    rewrite (@concat_length_const _ (w * c)).
    - rewrite length_map, Hh; lia.
    - apply Forall_map. revert Hrows; apply Forall_impl.
      intros row [Hw Hpx]. rewrite (concat_length_const Hpx). now rewrite Hw.
  Qed.

Lemma grid_blocks_shape ph pw t :
    has_shape (3 * ph) (4 * pw) 3 t ->
    Forall (has_shape ph pw 3) (grid_blocks ph pw t).
  Proof.
    intros Ht. unfold grid_blocks. cbn [seq map concat app].
    repeat (apply Forall_cons; [eapply block_shape; [exact Ht | lia | lia]|]).
    apply Forall_nil.
  Qed.

Lemma extract_patches_grid ph pw t :
    0 < ph -> 0 < pw -> has_shape (3 * ph) (4 * pw) 3 t ->
    extract_patches (3 * ph, 4 * pw) t = Some (grid_blocks ph pw t).
  Proof.
    intros Hph Hpw Ht.
    destruct (shape_dims Ht) as (Hh & Hw & _); try lia.
    unfold extract_patches. cbn [fst snd].
    rewrite (Nat.mul_comm 3 ph), (Nat.mul_comm 4 pw), !Nat.div_mul by lia.
    unfold tf_image_extract_patches.
    destruct (Nat.eqb_spec ph 0) as [?|_]; [lia|].
    destruct (Nat.eqb_spec pw 0) as [?|_]; [lia|].
    cbn [orb obind]. rewrite Hh, Hw, !Nat.div_mul by lia.
    pose proof (@grid_blocks_shape ph pw t Ht) as Hsh.
    assert (Hflat : concat (map (fun r => map (fun c => concat (concat (block ph pw t r c)))
                                         (seq 0 4)) (seq 0 3))
                    = map (fun B => concat (concat B)) (grid_blocks ph pw t))
      by reflexivity.
    rewrite Hflat. unfold tf_reshape4.
    assert (Hall : Forall (fun l => length l = ph * pw * 3)
                     (map (fun B => concat (concat B)) (grid_blocks ph pw t))).
    { apply Forall_map. revert Hsh; apply Forall_impl.
      intros B HB. exact (flat_block_length HB). }
    rewrite (concat_length_const Hall), length_map.
    change (length (grid_blocks ph pw t)) with 12.
    replace (12 * (ph * pw * 3)) with (12 * ph * pw * 3) by lia.
    rewrite Nat.eqb_refl. f_equal.
    change 12 with (length (map (fun B : image A => concat (concat B))
                                (grid_blocks ph pw t))) at 1.
    rewrite (chunks_concat Hall), map_map.
    clear Hall Hflat. induction Hsh as [|B Bs HB _ IH]; simpl; trivial.
    rewrite IH. f_equal. exact (reshape_block HB).
  Qed.

Lemma concat_grid_row ph pw t i :
    0 < ph -> 0 < pw -> has_shape (3 * ph) (4 * pw) 3 t -> i < 3 ->
    tf_concat_axis1 [block ph pw t i 0; block ph pw t i 1;
                     block ph pw t i 2; block ph pw t i 3]
    = Some (slice (i * ph) ph t).
  Proof.
    intros Hph Hpw Ht Hi. unfold tf_concat_axis1.
    assert (Hb : forall k, k < 4 ->
                 height (block ph pw t i k) = ph /\ depth (block ph pw t i k) = 3).
    { intros k Hk.
      assert (HB : has_shape ph pw 3 (block ph pw t i k))
        by (eapply block_shape; [exact Ht | nia | nia]).
      destruct (shape_dims HB) as (? & _ & ?); auto. }
    cbn [forallb].
    destruct (Hb 0) as [-> ->]; [lia|]. destruct (Hb 1) as [-> ->]; [lia|].
    destruct (Hb 2) as [-> ->]; [lia|]. destruct (Hb 3) as [-> ->]; [lia|].
    rewrite !Nat.eqb_refl. cbn [andb]. f_equal.
    destruct (slice_shape (i * ph) ph Ht) as [Hlen Hrows]; [nia|].
    rewrite <- Hlen at 1.
    apply (glue_rows 4 pw). revert Hrows; apply Forall_impl. now intros row [? _].
  Qed.

Lemma reconstruct_grid ph pw t :
    0 < ph -> 0 < pw -> has_shape (3 * ph) (4 * pw) 3 t ->
    reconstruct_image (grid_blocks ph pw t) (3, 4) = Some t.
  Proof.
    intros Hph Hpw Ht. unfold reconstruct_image, grid_blocks.
    cbn [fst snd seq map concat app mapM nth_error Nat.mul Nat.add obind].
    rewrite !concat_grid_row by (trivial; lia).
    cbn [obind]. unfold tf_concat_axis0.
    assert (Hs : forall i, i < 3 ->
                 width (slice (i * ph) ph t) = 4 * pw /\
                 depth (slice (i * ph) ph t) = 3).
    { intros i Hi.
      assert (HS : has_shape ph (4 * pw) 3 (slice (i * ph) ph t))
        by (apply (slice_shape _ _ Ht); nia).
      destruct (shape_dims HS) as (_ & ? & ?); auto; lia. }
    cbn [forallb].
    destruct (Hs 0) as [-> ->]; [lia|]. destruct (Hs 1) as [-> ->]; [lia|].
    destruct (Hs 2) as [-> ->]; [lia|].
    rewrite !Nat.eqb_refl. cbn [andb]. f_equal.
    change [slice (0 * ph) ph t; slice (1 * ph) ph t; slice (2 * ph) ph t]
      with (map (fun c => slice (c * ph) ph t) (seq 0 3)).
    rewrite concat_slices. destruct Ht as [Hlen _]. apply firstn_all2; lia.
  Qed.

End WithDtype.

Section Claims.
  Variable A : Type.

Lemma mapM_total (X Y : Type) (f : X -> option Y) (g : X -> Y) (l : list X) :
    Forall (fun x => f x = Some (g x)) l -> mapM f l = Some (map g l).
  Proof.
    induction 1 as [|x l Hx _ IH]; simpl; trivial.
    now rewrite Hx, IH.
  Qed.

Lemma combine_concat (X Y : Type) (f : X -> list Y) (n : nat) (l : list (X * X)) :
    (forall x, length (f x) = n) ->
    combine (concat (map f (map fst l))) (concat (map f (map snd l)))
    = concat (map (fun p => combine (f (fst p)) (f (snd p))) l).
  Proof.
    intros Hn. induction l as [|[a b] l IH]; simpl; trivial.
    rewrite <- IH. generalize (concat (map f (map fst l))) as u.
    generalize (concat (map f (map snd l))) as v.
    generalize (Hn a) (Hn b). generalize (f a) (f b). clear.
    intros la; revert n; induction la as [|x la IH]; intros n lb Ha Hb v u;
      destruct lb as [|y lb]; simpl in *; subst; try discriminate; trivial.
    f_equal. eapply IH; eauto.
  Qed.

Lemma divisible_dims H W :
    0 < H -> 0 < W -> H mod 3 = 0 -> W mod 4 = 0 ->
    0 < H / 3 /\ 0 < W / 4 /\ H = 3 * (H / 3) /\ W = 4 * (W / 4).
  Proof.
    intros HH HW H3 W4.
    pose proof (Nat.div_mod_eq H 3). pose proof (Nat.div_mod_eq W 4). lia.
  Qed.

  (** C1 (amended).  With the fixed 3 x 4 grid, an image of 3 channels
      whose height is a positive multiple of 3 and whose width is a
      positive multiple of 4 is recovered exactly by reconstructing its
      twelve patches with grid shape (3, 4). *)
Theorem round_trip_3x4 (H W : nat) (t : image A) :
    0 < H -> 0 < W -> H mod 3 = 0 -> W mod 4 = 0 ->
    has_shape H W 3 t ->
    tile_then_reconstruct (H, W) t (3, 4) = Some t.
  Proof.
    intros HH HW H3 W4 Ht.
    destruct (divisible_dims HH HW H3 W4) as (Hph & Hpw & EH & EW).
    unfold tile_then_reconstruct. rewrite EH, EW in Ht |- *.
    rewrite extract_patches_grid by assumption.
    cbn [obind]. now apply reconstruct_grid.
  Qed.

  (** C5 (amended).  The grid is fixed at 3 x 4: an image of shape
      (H, W, 3) with H a positive multiple of 3 and W a positive multiple
      of 4 is cut into 12 patches of shape (H/3, W/4, 3), patch [r * 4 + c]
      being the block in grid row [r] and grid column [c]; a corpus of [n]
      such pairs yields [12 * n] patch pairs, the patches of the two images
      of a pair staying aligned. *)
Theorem tiler_output_3x4 (H W : nat) :
    0 < H -> 0 < W -> H mod 3 = 0 -> W mod 4 = 0 ->
    (forall t : image A, has_shape H W 3 t ->
       exists ps, extract_patches (H, W) t = Some ps /\
                  length ps = 12 /\
                  Forall (has_shape (H / 3) (W / 4) 3) ps /\
                  forall r c, r < 3 -> c < 4 ->
                    nth_error ps (r * 4 + c) = Some (block (H / 3) (W / 4) t r c)) /\
    (forall ds : list (image A * image A),
       Forall (fun p => has_shape H W 3 (fst p) /\ has_shape H W 3 (snd p)) ds ->
       exists out, extract_patches_from_dataset (H, W) ds = Some out /\
                   length out = 12 * length ds /\
                   out = concat (map (fun p =>
                                        combine (grid_blocks (H / 3) (W / 4) (fst p))
                                                (grid_blocks (H / 3) (W / 4) (snd p)))
                                     ds)).
  Proof.
    intros HH HW H3 W4.
    destruct (divisible_dims HH HW H3 W4) as (Hph & Hpw & EH & EW).
    set (ph := H / 3) in *. set (pw := W / 4) in *.
    assert (Hex : forall t : image A, has_shape H W 3 t ->
                  extract_patches (H, W) t = Some (grid_blocks ph pw t)).
    { intros t Ht. rewrite EH, EW in Ht |- *. now apply extract_patches_grid. }
    split.
    - intros t Ht. exists (grid_blocks ph pw t). split; [auto|].
      split; [reflexivity|]. split.
      + apply grid_blocks_shape. now rewrite <- EH, <- EW.
      + intros r c Hr Hc.
        assert (Hr' : r = 0 \/ r = 1 \/ r = 2) by lia.
        assert (Hc' : c = 0 \/ c = 1 \/ c = 2 \/ c = 3) by lia.
        destruct Hr' as [-> | [-> | ->]]; destruct Hc' as [-> | [-> | [-> | ->]]];
          reflexivity.
    - intros ds Hds. unfold extract_patches_from_dataset.
      rewrite (@mapM_total _ _ (extract_patches (H, W)) (grid_blocks ph pw) (map fst ds)).
      2:{ apply Forall_map. revert Hds; apply Forall_impl. intros p [? _]; auto. }
      rewrite (@mapM_total _ _ (extract_patches (H, W)) (grid_blocks ph pw) (map snd ds)).
      2:{ apply Forall_map. revert Hds; apply Forall_impl. intros p [_ ?]; auto. }
      cbn [obind]. eexists; split; [reflexivity|].
      rewrite (@combine_concat _ _ (grid_blocks ph pw) 12) by reflexivity.
      split; trivial.
      rewrite (@concat_length_const _ 12).
      + rewrite length_map; lia.
      + apply Forall_map, Forall_forall. intros p _. reflexivity.
  Qed.

End Claims.

(** C1, witness: a 3 x 8 image. *)
Lemma round_trip_3x4_witness :
  tile_then_reconstruct (3, 8) (ramp 3 8) (3, 4) = Some (ramp 3 8).
Proof.
  apply round_trip_3x4; try lia; try reflexivity.
  split; [reflexivity|]. repeat constructor.
Defined.

(** C1 as stated fails: a 6 x 4 image and the grid shape (2, 2), which
    divides both dimensions.  The tiler still cuts 3 x 4 patches and the
    reconstructor picks patches 0, 1, 4 and 5 of them. *)
Lemma round_trip_2x2_fails :
  has_shape 6 4 3 (ramp 6 4) /\ 6 mod 2 = 0 /\ 4 mod 2 = 0 /\
  tile_then_reconstruct (6, 4) (ramp 6 4) (2, 2) <> Some (ramp 6 4).
Proof.
  split; [split; [reflexivity | repeat constructor]|].
  split; [reflexivity|]. split; [reflexivity|].
  vm_compute. discriminate.
Qed.

(** C5, witness: the 6 x 4 image and a corpus of 8 copies of it. *)
Lemma tiler_output_3x4_witness :
  (exists ps, extract_patches (6, 4) (ramp 6 4) = Some ps /\ length ps = 12) /\
  (exists out, extract_patches_from_dataset (6, 4) (repeat (ramp 6 4, ramp 6 4) 8)
               = Some out /\ length out = 96).
Proof.
  assert (Hs : has_shape 6 4 3 (ramp 6 4))
    by (split; [reflexivity | repeat constructor]).
  destruct (@tiler_output_3x4 nat 6 4) as [Himg Hds]; try lia; try reflexivity.
  split.
  - destruct (Himg _ Hs) as (ps & E & L & _). exists ps; auto.
  - destruct (Hds (repeat (ramp 6 4, ramp 6 4) 8)) as (out & E & L & _).
    + repeat constructor; apply Hs.
    + exists out; auto.
Defined.

(** C5 as stated fails: 8 image pairs of 6 x 4 pixels, a size that the
    grid (2, 2) divides, give 96 patch pairs, not 32; the grid shape is
    not configurable. *)
Lemma tiler_8_images_not_32 :
  has_shape 6 4 3 (ramp 6 4) /\ 6 mod 2 = 0 /\ 4 mod 2 = 0 /\
  option_map (@length _)
             (extract_patches_from_dataset (6, 4) (repeat (ramp 6 4, ramp 6 4) 8))
  = Some 96 /\
  option_map (@length _)
             (extract_patches_from_dataset (6, 4) (repeat (ramp 6 4, ramp 6 4) 8))
  <> Some (8 * (2 * 2)).
Proof.
  split; [split; [reflexivity | repeat constructor]|].
  split; [reflexivity|]. split; [reflexivity|].
  split; [vm_compute; reflexivity | vm_compute; discriminate].
Qed.

End TilerFacts.

(** ** Shard Lister *)

Module ListerFacts.
Import Lister.
Local Open Scope string_scope.

(** C7 (amended).  The identifiers are handed downstream in the order
    in which the store lists them, each joined to [gs://bucket_name]; no
    sort is applied: entry [i] comes from listed blob [i], and a store
    that lists in the opposite order yields the opposite sequence. *)
Theorem listing_keeps_store_order (bucket_name prefix : string) (b : bucket) :
  (forall i, nth_error (tf_trainval bucket_name prefix b) i
             = option_map (os_path_join ("gs://" ++ bucket_name))
                          (nth_error (list_blobs b (prefix ++ "/train")) i)) /\
  (forall i, nth_error (tf_test bucket_name prefix b) i
             = option_map (os_path_join ("gs://" ++ bucket_name))
                          (nth_error (list_blobs b (prefix ++ "/test")) i)) /\
  tf_trainval bucket_name prefix (rev b) = rev (tf_trainval bucket_name prefix b) /\
  tf_test bucket_name prefix (rev b) = rev (tf_test bucket_name prefix b).
Proof.
  unfold tf_trainval, tf_test, list_blobs. repeat split.
  - intros i. apply nth_error_map.
  - intros i. apply nth_error_map.
  - now rewrite filter_rev, map_rev.
  - now rewrite filter_rev, map_rev.
Qed.

(** C7 as stated fails: two listings of the same two shards are handed
    downstream in two different orders. *)
Lemma listing_depends_on_store_order :
  Permutation store_ab store_ba /\
  tf_trainval "bucket" "reds" store_ab = ["gs://bucket/reds/train/a.tfrecords";
                                          "gs://bucket/reds/train/b.tfrecords"] /\
  tf_trainval "bucket" "reds" store_ba = ["gs://bucket/reds/train/b.tfrecords";
                                          "gs://bucket/reds/train/a.tfrecords"] /\
  tf_trainval "bucket" "reds" store_ab <> tf_trainval "bucket" "reds" store_ba.
Proof.
  split; [apply perm_swap|].
  split; [reflexivity|]. split; [reflexivity|]. discriminate.
Qed.

End ListerFacts.

(** ** Augmentor *)

Module AugmentorFacts.
Import Augmentor.

(** C2.  Whatever the draw, the two images of a pair receive the same
    transform: both are flipped along the same axis when the draw exceeds
    one half, and both are left unchanged otherwise. *)
Theorem flips_are_paired (A : Type) (u : Q) (blur sharp : Tiler.image A) :
  (((1 # 2 < u)%Q /\
    _random_horizontal_flip u blur sharp = (flip_left_right blur, flip_left_right sharp))
   \/ (~ (1 # 2 < u)%Q /\ _random_horizontal_flip u blur sharp = (blur, sharp)))
  /\
  (((1 # 2 < u)%Q /\
    _random_vertical_flip u blur sharp = (flip_up_down blur, flip_up_down sharp))
   \/ (~ (1 # 2 < u)%Q /\ _random_vertical_flip u blur sharp = (blur, sharp))).
Proof.
  unfold _random_horizontal_flip, _random_vertical_flip, tf_cond.
  destruct (Qle_bool u (1 # 2)) eqn:E; cbn [negb].
  - apply Qle_bool_iff in E.
    split; right; (split; [|reflexivity]); intros Hlt;
      exact (Qlt_not_le _ _ Hlt E).
  - assert (Hlt : (1 # 2 < u)%Q).
    { apply Qnot_le_lt. intros Hle. apply Qle_bool_iff in Hle. congruence. }
    split; left; (split; [exact Hlt | reflexivity]).
Qed.

End AugmentorFacts.

(** ** Epoch Batcher and the step counts *)

Module BatcherFacts.
Import TfList.

Section Batches.
  Variable X : Type.
  Implicit Types l : list X.

Lemma batch_go_nil fuel n : batch_go fuel n (@nil X) = [].
  Proof. now destruct fuel. Qed.

  (** [q] full batches followed by the remainder, if there is one. *)
Lemma batch_go_shape q n r fuel l :
    0 < n -> r < n -> length l = q * n + r -> length l <= fuel ->
    batch_go fuel n l
    = chunks q n l ++ (if r =? 0 then [] else [skipn (q * n) l]).
  Proof.
    intros Hn Hr. revert fuel l.
    induction q as [|q IH]; intros fuel l Hlen Hfuel.
    - cbn [chunks app Nat.mul skipn]. simpl in Hlen.
      destruct (Nat.eqb_spec r 0) as [->|Hr0].
      + destruct l; [apply batch_go_nil | discriminate].
      + destruct l as [|x l]; [simpl in Hlen; lia|].
        destruct fuel as [|fuel]; [simpl in Hfuel; lia|].
        cbn [batch_go]. rewrite firstn_all2, skipn_all2 by lia.
        now rewrite batch_go_nil.
    - destruct l as [|x l]; [simpl in Hlen; lia|].
      destruct fuel as [|fuel]; [simpl in Hfuel; lia|].
      cbn [batch_go chunks]. rewrite <- app_comm_cons. f_equal.
      rewrite (IH fuel (skipn n (x :: l))).
      + replace (S q * n) with (n + q * n) by lia. now rewrite skipn_plus.
      + rewrite length_skipn, Hlen. lia.
      + rewrite length_skipn. cbn [length] in *. lia.
  Qed.

Lemma chunks_full q n l :
    q * n <= length l -> Forall (fun b => length b = n) (chunks q n l).
  Proof.
    revert l; induction q as [|q IH]; intros l Hq; cbn [chunks]; constructor.
    - rewrite length_firstn. lia.
    - apply IH. rewrite length_skipn. lia.
  Qed.

Lemma chunks_prefix q n l :
    q * n <= length l -> concat (chunks q n l) = firstn (q * n) l.
  Proof.
    revert l; induction q as [|q IH]; intros l Hq; cbn [chunks concat]; trivial.
    rewrite IH by (rewrite length_skipn; lia).
    replace (S q * n) with (n + q * n) by lia. now rewrite firstn_plus.
  Qed.

  (** The batcher drops nothing and emits no empty batch. *)
Lemma batch_total (batch_size : Z) l :
    (0 < batch_size)%Z ->
    exists bs, batch batch_size l = Some bs /\ concat bs = l /\
               Forall (fun b => b <> []) bs.
  Proof.
    intros Hb. set (n := Z.to_nat batch_size).
    assert (Hn : 0 < n) by (unfold n; lia).
    pose proof (Nat.div_mod_eq (length l) n) as Hdm.
    pose proof (Nat.mod_upper_bound (length l) n ltac:(lia)) as Hr.
    set (q := length l / n) in *. set (r := length l mod n) in *.
    assert (Hlen : length l = q * n + r) by lia.
    unfold batch. destruct (Z.leb_spec batch_size 0); [lia|].
    eexists; split; [reflexivity|]. fold n.
    rewrite (@batch_go_shape q n r) by (auto; lia). split.
    - rewrite concat_app, chunks_prefix by lia.
      destruct (r =? 0) eqn:E; cbn [concat].
      + apply Nat.eqb_eq in E. rewrite app_nil_r. apply firstn_all2. lia.
      + rewrite app_nil_r. apply firstn_skipn.
    - apply Forall_app; split.
      + generalize (chunks_full q n l ltac:(lia)). apply Forall_impl.
        intros b0 Hb0 ->. cbn [length] in Hb0. lia.
      + destruct (Nat.eqb_spec r 0); constructor; [|constructor].
        intros E. apply (f_equal (@length X)) in E.
        rewrite length_skipn in E. cbn [length] in E. lia.
  Qed.

End Batches.

Local Open Scope Z_scope.

(** C6.  For a positive batch size the step count of the consumer is the
    floor of [subset_size / batch_size]; the batcher loses no element,
    its first [steps] batches hold exactly [batch_size] elements, and it
    emits one more, final batch of [subset_size mod batch_size] elements
    exactly when that remainder is not zero. *)
Theorem batch_sizing (X : Type) (l : list X) (batch_size : Z) :
  0 < batch_size ->
  let subset_size := Z.of_nat (length l) in
  exists steps bs,
    Consumer.steps_per_epoch subset_size batch_size = Some steps /\
    steps * batch_size <= subset_size < (steps + 1) * batch_size /\
    batch batch_size l = Some bs /\
    concat bs = l /\
    Forall (fun b => Z.of_nat (length b) = batch_size) (firstn (Z.to_nat steps) bs) /\
    (subset_size mod batch_size = 0 -> Z.of_nat (length bs) = steps) /\
    (subset_size mod batch_size <> 0 ->
       Z.of_nat (length bs) = steps + 1 /\
       Z.of_nat (length (last bs [])) = subset_size mod batch_size).
Proof.
  intros Hb subset_size.
  set (n := Z.to_nat batch_size).
  assert (Hn : (0 < n)%nat) by (unfold n; lia).
  assert (En : batch_size = Z.of_nat n) by (unfold n; lia).
  set (q := (length l / n)%nat). set (r := (length l mod n)%nat).
  assert (Hlen : length l = (q * n + r)%nat).
  { unfold q, r. pose proof (Nat.div_mod_eq (length l) n). lia. }
  assert (Hr : (r < n)%nat) by (unfold r; apply Nat.mod_upper_bound; lia).
  assert (Eq : subset_size / batch_size = Z.of_nat q).
  { unfold subset_size, q. now rewrite En, Nat2Z.inj_div. }
  assert (Er : subset_size mod batch_size = Z.of_nat r).
  { unfold subset_size, r. now rewrite En, Nat2Z.inj_mod. }
  exists (Z.of_nat q),
    (chunks q n l ++ (if (r =? 0)%nat then [] else [skipn (q * n) l])).
  assert (Hq : (q * n <= length l)%nat) by lia.
  split.
  { unfold Consumer.steps_per_epoch.
    destruct (Z.eqb_spec batch_size 0); [lia|]. now rewrite Eq. }
  split.
  { unfold subset_size. rewrite Hlen, En. nia. }
  split.
  { unfold batch. destruct (Z.leb_spec batch_size 0); [lia|].
    fold n. f_equal. apply (@batch_go_shape X q n r); auto. }
  split.
  { rewrite concat_app, chunks_prefix by exact Hq.
    destruct (Nat.eqb_spec r 0) as [Hr0|Hr0]; cbn [concat].
    - rewrite app_nil_r. apply firstn_all2. lia.
    - rewrite app_nil_r. apply firstn_skipn. }
  split.
  { rewrite Nat2Z.id.
    rewrite <- (chunks_length q n l) at 1. rewrite firstn_app, Nat.sub_diag.
    cbn [firstn]. rewrite app_nil_r, firstn_all.
    generalize (chunks_full q n l Hq). apply Forall_impl. intros b0 Hb0. lia. }
  rewrite Er. split.
  - intros Hr0. destruct (Nat.eqb_spec r 0); [|lia].
    now rewrite app_nil_r, chunks_length.
  - intros Hr0. destruct (Nat.eqb_spec r 0); [lia|].
    rewrite length_app, chunks_length, last_last, length_skipn. cbn [length].
    split; lia.
Qed.

(** C6, witness: the scenario of 875 training elements in batches of
    16, i.e. 54 steps and a final batch of 11 elements. *)
Lemma batch_sizing_witness :
  exists bs,
    Consumer.steps_per_epoch 875 16 = Some 54 /\
    batch 16 (seq 0 875) = Some bs /\
    Forall (fun b => Z.of_nat (length b) = 16) (firstn 54 bs) /\
    Z.of_nat (length bs) = 55 /\ Z.of_nat (length (last bs [])) = 11.
Proof.
  destruct (@batch_sizing nat (seq 0 875) 16) as (steps & bs & Hs & _ & Hbs & _ & Hfull & _ & Hpart);
    [reflexivity|].
  rewrite length_seq in *.
  assert (E : steps = 54) by (vm_compute in Hs; congruence).
  subst steps. exists bs.
  destruct Hpart as [Hcount Hlast]; [vm_compute; discriminate|].
  repeat split; trivial.
Defined.

End BatcherFacts.

(** ** The shuffle buffer permutes its input *)

Module ShuffleFacts.
Import TfList.

Section Shuffle.
  Variable X : Type.
  Implicit Types buf input : list X.

Lemma replace_nth_perm (r : list X) (k : nat) (b : X) :
    Permutation (nth k r b :: replace_nth k b r) (b :: r).
  Proof.
    revert k; induction r as [|y t IH]; intros k.
    - destruct k; reflexivity.
    - destruct k as [|k]; cbn [nth replace_nth].
      + apply perm_swap.
      + etransitivity; [apply perm_swap|].
        etransitivity; [apply perm_skip, IH|]. apply perm_swap.
  Qed.

Lemma pick_perm (k : nat) buf (x : X) buf' :
    pick k buf = Some (x, buf') -> Permutation (x :: buf') buf.
  Proof.
    destruct buf as [|b r]; [discriminate|]. unfold pick.
    intros E; injection E as <- <-.
    destruct k as [|k]; cbn [nth replace_nth tl]; [reflexivity|].
    apply replace_nth_perm.
  Qed.

Lemma drain_perm (fuel : nat) (draw : nat -> nat) (i : nat) buf :
    length buf <= fuel -> Permutation (drain fuel draw i buf) buf.
  Proof.
    revert i buf; induction fuel as [|fuel IH]; intros i buf Hlen.
    - destruct buf; [reflexivity | simpl in Hlen; lia].
    - cbn [drain].
      destruct (pick (draw i mod length buf) buf) as [[x buf']|] eqn:E.
      + pose proof (pick_perm _ _ E) as Hp.
        etransitivity; [|exact Hp]. apply perm_skip, IH.
        apply Permutation_length in Hp. cbn [length] in Hp. lia.
      + destruct buf; [reflexivity | discriminate].
  Qed.

Lemma shuffle_go_perm (buffer_size : nat) (draw : nat -> nat) input :
    forall i buf,
      Permutation (shuffle_go buffer_size draw i buf input) (buf ++ input).
  Proof.
    induction input as [|x rest IH]; intros i buf; cbn [shuffle_go].
    - rewrite app_nil_r. now apply drain_perm.
    - destruct (length buf <? buffer_size).
      + rewrite IH, <- app_assoc. reflexivity.
      + destruct (pick (draw i mod length buf) buf) as [[y buf']|] eqn:E.
        * pose proof (pick_perm _ _ E) as Hp.
          rewrite IH, <- app_assoc. cbn [app].
          rewrite <- Hp. reflexivity.
        * destruct buf; [|discriminate]. cbn [app]. now rewrite IH.
  Qed.

Lemma shuffle_perm (buffer_size : nat) (draw : nat -> nat) input :
    Permutation (shuffle buffer_size draw input) input.
  Proof. apply (shuffle_go_perm buffer_size draw input 0 []). Qed.

Lemma take_skip (count : Z) (l : list X) : take count l ++ skip count l = l.
  Proof.
    unfold take, skip. destruct (count <? 0)%Z.
    - apply app_nil_r.
    - apply firstn_skipn.
  Qed.

Lemma take_length (count : Z) (l : list X) :
    length (take count l)
    = if (count <? 0)%Z then length l else Nat.min (Z.to_nat count) (length l).
  Proof.
    unfold take. destruct (count <? 0)%Z; trivial. apply length_firstn.
  Qed.

End Shuffle.

End ShuffleFacts.

(** ** Splitter *)

Module SplitterFacts.
Import TfData TfList Pipeline Epochs ShuffleFacts.

Section Split.
  Variable P : Type.
  Variable g : generator.

Lemma Splitter_eval (e : entropy) (val_size : Z) (seed : option Z)
        (corpus : list P) :
    Splitter g e val_size seed (from_list corpus) (initial_state P)
    = Some (skip val_size (permuted g e seed corpus),
            take val_size (permuted g e seed corpus)).
  Proof. reflexivity. Qed.

  (** C3.  With an integer seed the Train and Validation subsets do not
      depend on the run: every run, whatever its entropy, computes the
      same assignment from the same seed, validation size and corpus
      order. *)
Theorem split_is_deterministic (s : Z) (val_size : Z) (corpus : list P) :
    exists train val,
      forall e : entropy,
        Splitter g e val_size (Some s) (from_list corpus) (initial_state P)
        = Some (train, val).
  Proof.
    exists (skip val_size (shuffle 50 (seeded_index g s SplitShuffle 0) corpus)),
           (take val_size (shuffle 50 (seeded_index g s SplitShuffle 0) corpus)).
    intros e. apply Splitter_eval.
  Qed.

End Split.

(** C4.  Train and Validation partition the corpus: on the corpus of
    indices [0 .. n-1] they are disjoint, together they are a
    rearrangement of the corpus, and their sizes add up to [n]; a corpus
    of 1000 with validation size 125 gives 875 and 125. *)
Theorem split_is_partition (g : generator) (e : entropy) (seed : option Z) :
  (forall (val_size : Z) (n : nat),
     exists train val,
       Splitter g e val_size seed (from_list (seq 0 n)) (initial_state nat)
       = Some (train, val) /\
       Permutation (val ++ train) (seq 0 n) /\
       (forall i, ~ (In i train /\ In i val)) /\
       length train + length val = n /\
       length val = if (val_size <? 0)%Z then n else Nat.min (Z.to_nat val_size) n) /\
  (exists train val,
     Splitter g e 125 seed (from_list (seq 0 1000)) (initial_state nat)
     = Some (train, val) /\
     length train = 875 /\ length val = 125).
Proof.
  assert (Hgen : forall (val_size : Z) (n : nat),
     exists train val,
       Splitter g e val_size seed (from_list (seq 0 n)) (initial_state nat)
       = Some (train, val) /\
       Permutation (val ++ train) (seq 0 n) /\
       (forall i, ~ (In i train /\ In i val)) /\
       length train + length val = n /\
       length val = if (val_size <? 0)%Z then n else Nat.min (Z.to_nat val_size) n).
  { intros val_size n. rewrite Splitter_eval.
    set (sh := permuted g e seed (seq 0 n)).
    assert (Hperm : Permutation sh (seq 0 n)) by apply shuffle_perm.
    assert (Hsplit : take val_size sh ++ skip val_size sh = sh) by apply take_skip.
    exists (skip val_size sh), (take val_size sh).
    split; [reflexivity|]. split; [now rewrite Hsplit|].
    assert (Hlen : length sh = n)
      by (rewrite (Permutation_length Hperm); apply length_seq).
    split; [|split].
    - intros i [Ht Hv].
      assert (Hnd : NoDup (take val_size sh ++ skip val_size sh)).
      { rewrite Hsplit. apply (Permutation_NoDup (Permutation_sym Hperm)).
        apply seq_NoDup. }
      apply in_split in Hv. destruct Hv as (l1 & l2 & Hv).
      rewrite Hv, <- app_assoc in Hnd. cbn [app] in Hnd.
      apply NoDup_remove_2 in Hnd. apply Hnd.
      rewrite app_assoc. apply in_or_app. now right.
    - pose proof (f_equal (@length nat) Hsplit) as Hl.
      rewrite length_app in Hl. lia.
    - now rewrite take_length, Hlen. }
  split; [exact Hgen|].
  destruct (Hgen 125%Z 1000) as (train & val & E & _ & _ & Hsum & Hval).
  exists train, val. split; [exact E|].
  change (length val = 125) in Hval. lia.
Qed.

End SplitterFacts.

(** ** The streams returned by [load_dataset_from_gcs] *)

Module PipelineFacts.
Import TfData TfList Pipeline Epochs ShuffleFacts BatcherFacts.

Section Caches.
  Variable P : Type.
  Variables (g : generator) (e : entropy) (val_size : Z) (seed : option Z).
  Variable source : dataset P P.
  Variable corpus : list P.
  Hypothesis Hsrc : forall s, source s = Some (corpus, s).

Lemma train_cached_spec (s : tf_state P) :
    let T := skip val_size (permuted g e seed corpus) in
    caches s TrainCache = None \/ caches s TrainCache = Some T ->
    exists s1,
      train_cached g e val_size seed source s = Some (T, s1) /\
      caches s1 TrainCache = Some T /\
      caches s1 ValCache = caches s ValCache /\
      iterations s1 SplitShuffle
      = iterations s SplitShuffle + fills 1 (caches s TrainCache).
  Proof.
    intros T [Hc|Hc]; unfold train_cached, ds_cache; rewrite Hc.
    - unfold ds_skip, shuffled, ds_shuffle. rewrite Hsrc. cbn [obind fst snd].
      eexists; split; [reflexivity|]. cbn. repeat split; lia.
    - exists s. cbn. repeat split; trivial; lia.
  Qed.

Lemma val_cached_spec (s : tf_state P) :
    let V := take val_size (permuted g e seed corpus) in
    caches s ValCache = None \/ caches s ValCache = Some V ->
    exists s1,
      val_cached g e val_size seed source s = Some (V, s1) /\
      caches s1 ValCache = Some V /\
      caches s1 TrainCache = caches s TrainCache /\
      iterations s1 SplitShuffle
      = iterations s SplitShuffle + fills 1 (caches s ValCache).
  Proof.
    intros V [Hc|Hc]; unfold val_cached, ds_cache; rewrite Hc.
    - unfold ds_take, shuffled, ds_shuffle. rewrite Hsrc. cbn [obind fst snd].
      eexists; split; [reflexivity|]. cbn. repeat split; lia.
    - exists s. cbn. repeat split; trivial; lia.
  Qed.

End Caches.

Section Repeat.
  Variables P X : Type.
  Variables mine other : op.
  Variable C : list P.
  Variable d : dataset P (list X).
  Variable Ep : list (list X) -> Prop.

  Hypothesis Hstep :
    forall s, caches s mine = None \/ caches s mine = Some C ->
      exists out s',
        d s = Some (out, s') /\
        caches s' mine = Some C /\
        caches s' other = caches s other /\
        iterations s' SplitShuffle
        = iterations s SplitShuffle + fills 1 (caches s mine) /\
        Ep out.

Lemma repeat_spec (epochs : nat) :
    forall s, caches s mine = None \/ caches s mine = Some C ->
      exists out s',
        ds_repeat epochs d s = Some (out, s') /\
        (caches s' mine = None \/ caches s' mine = Some C) /\
        (0 < epochs -> caches s' mine = Some C) /\
        caches s' other = caches s other /\
        iterations s' SplitShuffle
        = iterations s SplitShuffle + fills epochs (caches s mine) /\
        exists per_epoch,
          length per_epoch = epochs /\ out = concat per_epoch /\
          Forall Ep per_epoch.
  Proof.
    induction epochs as [|n IH]; intros s Hs.
    - exists [], s. cbn [ds_repeat]. split; [reflexivity|].
      split; [exact Hs|]. split; [lia|]. split; [reflexivity|]. split.
      + destruct (caches s mine); cbn; lia.
      + exists []. repeat split. constructor.
    - destruct (Hstep s Hs) as (out & s1 & E1 & Hc1 & Ho1 & Hi1 & Hep).
      destruct (IH s1 (or_intror Hc1))
        as (outs & s2 & E2 & Hinv & Hpos & Ho2 & Hi2 & per & Hlen & Hcat & Hall).
      exists (out ++ outs), s2. cbn [ds_repeat]. rewrite E1. cbn [obind fst snd].
      rewrite E2. cbn [obind fst snd]. split; [reflexivity|].
      assert (Hc2 : caches s2 mine = Some C).
      { destruct n as [|n]; [|apply Hpos; lia].
        cbn [ds_repeat] in E2. injection E2 as _ <-. exact Hc1. }
      split; [now right|]. split; [intros _; exact Hc2|].
      split; [congruence|]. split.
      + rewrite Hi2, Hi1, Hc1. destruct (caches s mine); cbn; lia.
      + exists (out :: per). cbn [length concat]. subst outs.
        repeat split; auto.
  Qed.

End Repeat.

Section Flips.
  Variable A : Type.

Lemma Forall2_map_random (X Y : Type) (R : X -> Y -> Prop)
        (f : Q -> X -> Y) (u : nat -> Q) :
    (forall q x, R x (f q x)) ->
    forall l a,
      Forall2 R l (map (fun nx => f (u (fst nx)) (snd nx))
                       (combine (seq a (length l)) l)).
  Proof.
    intros HR. induction l as [|x l IH]; intros a; cbn; constructor; auto.
  Qed.

Lemma Forall2_compose (X Y Z : Type) (R1 : X -> Y -> Prop)
        (R2 : Y -> Z -> Prop) (R : X -> Z -> Prop) :
    (forall x y z, R1 x y -> R2 y z -> R x z) ->
    forall l1 l2 l3, Forall2 R1 l1 l2 -> Forall2 R2 l2 l3 -> Forall2 R l1 l3.
  Proof.
    intros HR l1 l2 l3 H12. revert l3.
    induction H12; intros l3 H23; inversion H23; subst; constructor; eauto.
  Qed.

End Flips.

Section Streams.
  Variable A : Type.
  Variables (g : generator) (e : entropy) (val_size batch_size : Z).
  Variable seed : option Z.
  Variable source : dataset (image_pair A) (image_pair A).
  Variable corpus : list (image_pair A).
  Hypothesis Hsrc : forall s, source s = Some (corpus, s).
  Hypothesis Hbatch : (0 < batch_size)%Z.

Lemma ds_batch_ok (X : Type) (d : dataset (image_pair A) X) :
    ds_batch batch_size d
    = Some (fun s => r <- d s ;;
                     b <- batch batch_size (fst r) ;;
                     Some (b, snd r)).
  Proof. unfold ds_batch. destruct (Z.leb_spec batch_size 0); [lia|reflexivity]. Qed.

Lemma flips_compose (l : list (image_pair A)) (uh uv : nat -> Q) :
    Forall2 (@flipped_copy A) l
      (map (fun nx => Augmentor._random_vertical_flip (uv (fst nx))
                        (fst (snd nx)) (snd (snd nx)))
           (combine
              (seq 0 (length
                 (map (fun nx => Augmentor._random_horizontal_flip (uh (fst nx))
                                   (fst (snd nx)) (snd (snd nx)))
                      (combine (seq 0 (length l)) l))))
              (map (fun nx => Augmentor._random_horizontal_flip (uh (fst nx))
                                (fst (snd nx)) (snd (snd nx)))
                   (combine (seq 0 (length l)) l)))).
  Proof.
    eapply Forall2_compose;
      [| apply (@Forall2_map_random _ _
                  (fun x y => exists q, y = Augmentor._random_horizontal_flip q (fst x) (snd x))
                  (fun q x => Augmentor._random_horizontal_flip q (fst x) (snd x)) uh);
         intros q x; now exists q
       | apply (@Forall2_map_random _ _
                  (fun x y => exists q, y = Augmentor._random_vertical_flip q (fst x) (snd x))
                  (fun q x => Augmentor._random_vertical_flip q (fst x) (snd x)) uv);
         intros q x; now exists q ].
    intros x y z [qh ->] [qv ->].
    exists (negb (Qle_bool qh (1 # 2))), (negb (Qle_bool qv (1 # 2))).
    reflexivity.
  Qed.

Lemma train_step (s : tf_state (image_pair A)) :
    let T := skip val_size (permuted g e seed corpus) in
    caches s TrainCache = None \/ caches s TrainCache = Some T ->
    exists out s',
      (r <- train_reshuffled g e val_size seed source s ;;
       b <- batch batch_size (fst r) ;;
       Some (b, snd r)) = Some (out, s') /\
      caches s' TrainCache = Some T /\
      caches s' ValCache = caches s ValCache /\
      iterations s' SplitShuffle
      = iterations s SplitShuffle + fills 1 (caches s TrainCache) /\
      augmented_epoch T out.
  Proof.
    intros T Hs.
    destruct (@train_cached_spec _ g e val_size seed source corpus Hsrc s Hs)
      as (s1 & E1 & Hc & Ho & Hi).
    unfold train_reshuffled, ds_shuffle, train_augmented, ds_map_random.
    rewrite E1. cbn [obind fst snd].
    match goal with
    | |- context [batch batch_size ?l] =>
        destruct (batch_total l Hbatch) as (bs & Eb & Hcat & Hne); rewrite Eb
    end.
    cbn [obind]. exists bs. eexists. split; [reflexivity|].
    cbn. repeat split; trivial.
    eexists. split; [apply flips_compose|].
    rewrite Hcat. apply shuffle_perm.
  Qed.

Lemma val_step (s : tf_state (image_pair A)) :
    let V := take val_size (permuted g e seed corpus) in
    caches s ValCache = None \/ caches s ValCache = Some V ->
    exists out s',
      (r <- val_reshuffled g e val_size seed source s ;;
       b <- batch batch_size (fst r) ;;
       Some (b, snd r)) = Some (out, s') /\
      caches s' ValCache = Some V /\
      caches s' TrainCache = caches s TrainCache /\
      iterations s' SplitShuffle
      = iterations s SplitShuffle + fills 1 (caches s ValCache) /\
      plain_epoch V out.
  Proof.
    intros V Hs.
    destruct (@val_cached_spec _ g e val_size seed source corpus Hsrc s Hs)
      as (s1 & E1 & Hc & Ho & Hi).
    unfold val_reshuffled, ds_shuffle. rewrite E1. cbn [obind fst snd].
    match goal with
    | |- context [batch batch_size ?l] =>
        destruct (batch_total l Hbatch) as (bs & Eb & Hcat & Hne); rewrite Eb
    end.
    cbn [obind]. exists bs. eexists. split; [reflexivity|].
    cbn. repeat split; trivial.
    rewrite Hcat. apply shuffle_perm.
  Qed.

End Streams.

Section Load.
  Variables A Proto : Type.
  Variable shard : string -> option (list Proto).
  Variable interleave : list (list Proto) -> list Proto.
  Variable _parse_image_fn : nat * nat -> Proto -> option (image_pair A).
  Variable g : generator.
  Variable e : entropy.
  Variable b : Lister.bucket.
  Variables bucket_name prefix : string.
  Variable res : nat * nat.
  Variables val_size batch_size : Z.
  Variable epochs : nat.
  Variable seed : option Z.
  Variable use_patches : bool.
  Variable corpus : list (image_pair A).

  (** What the returned streams do, from any state in which the caches
      are empty or hold the split. *)
Lemma load_streams :
    (forall s, trainval_data shard interleave _parse_image_fn b bucket_name
                             prefix res use_patches s = Some (corpus, s)) ->
    (0 < batch_size)%Z ->
    let T := skip val_size (permuted g e seed corpus) in
    let V := take val_size (permuted g e seed corpus) in
    exists train test val,
      load_dataset_from_gcs shard interleave _parse_image_fn g e b bucket_name
                            prefix res val_size batch_size epochs seed use_patches
      = Some (train, test, val) /\
      (forall s, caches s TrainCache = None \/ caches s TrainCache = Some T ->
         exists out s',
           train s = Some (out, s') /\
           (caches s' TrainCache = None \/ caches s' TrainCache = Some T) /\
           (0 < epochs -> caches s' TrainCache = Some T) /\
           caches s' ValCache = caches s ValCache /\
           iterations s' SplitShuffle
           = iterations s SplitShuffle + fills epochs (caches s TrainCache) /\
           exists per_epoch,
             length per_epoch = epochs /\ out = concat per_epoch /\
             Forall (augmented_epoch T) per_epoch) /\
      (forall s, caches s ValCache = None \/ caches s ValCache = Some V ->
         exists out s',
           val s = Some (out, s') /\
           (caches s' ValCache = None \/ caches s' ValCache = Some V) /\
           (0 < epochs -> caches s' ValCache = Some V) /\
           caches s' TrainCache = caches s TrainCache /\
           iterations s' SplitShuffle
           = iterations s SplitShuffle + fills epochs (caches s ValCache) /\
           exists per_epoch,
             length per_epoch = epochs /\ out = concat per_epoch /\
             Forall (plain_epoch V) per_epoch) /\
      test = (if use_patches
              then inl (test_data shard interleave _parse_image_fn b bucket_name
                                  prefix res)
              else inr (fun s =>
                          r <- test_data shard interleave _parse_image_fn b
                                         bucket_name prefix res s ;;
                          bt <- batch batch_size (fst r) ;;
                          Some (bt, snd r))).
  Proof.
    intros Hsrc Hbatch T V. unfold load_dataset_from_gcs.
    rewrite !(ds_batch_ok Hbatch). cbn [obind].
    destruct use_patches; cbn [negb option_map obind];
      (do 3 eexists; split; [reflexivity|]; split; [|split; [|reflexivity]]).
    all: try (intros s Hs;
              apply (@repeat_spec _ _ TrainCache ValCache T _ (augmented_epoch T));
              [intros s0 Hs0;
               apply (@train_step A g e val_size batch_size seed _ corpus Hsrc Hbatch s0 Hs0)
              | exact Hs]).
    all: intros s Hs;
         apply (@repeat_spec _ _ ValCache TrainCache V _ (@plain_epoch _ V));
         [intros s0 Hs0;
          apply (@val_step A g e val_size batch_size seed _ corpus Hsrc Hbatch s0 Hs0)
         | exact Hs].
  Qed.

End Load.

Lemma skip_nil (X : Type) (count : Z) : skip count (@nil X) = [].
Proof. unfold skip. destruct (count <? 0)%Z; trivial. apply skipn_nil. Qed.

Lemma take_nil (X : Type) (count : Z) : take count (@nil X) = [].
Proof. unfold take. destruct (count <? 0)%Z; trivial. apply firstn_nil. Qed.

Lemma concat_all_nil (X : Type) (l : list (list X)) :
  Forall (fun x => x = []) l -> concat l = [].
Proof. induction 1 as [|x l -> _ IH]; trivial. Qed.

Lemma nonempty_batches_of_nothing (X : Type) (bs : list (list X)) :
  Permutation (concat bs) [] -> Forall (fun b0 => b0 <> []) bs -> bs = [].
Proof.
  intros Hp Hne. apply Permutation_sym, Permutation_nil in Hp.
  destruct Hne as [|b0 bs Hb0 _]; trivial.
  cbn [concat] in Hp. apply app_eq_nil in Hp. destruct Hp as [-> _].
  now elim Hb0.
Qed.

(** C9.  One permutation of the corpus is fixed by the seed when the
    pipeline is built, and the Train and Validation subsets are cut from
    it.  From any state in which each cache is empty or holds its subset,
    running the training stream or the validation stream for all its
    epochs leaves each cache empty or holding that same, un-augmented
    subset.  The split shuffle is iterated by the first pass of a stream,
    the one that fills its cache, and by no later epoch ([fills] counts
    0 once the cache is full, whatever the number of epochs).  Every
    training epoch delivers flipped copies of the members of the cached
    Train subset, every validation epoch the members of the cached
    Validation subset. *)
Theorem split_fixed_across_epochs
        (A Proto : Type) (shard : string -> option (list Proto))
        (interleave : list (list Proto) -> list Proto)
        (_parse_image_fn : nat * nat -> Proto -> option (image_pair A))
        (g : generator) (e : entropy) (b : Lister.bucket)
        (bucket_name prefix : string) (res : nat * nat)
        (val_size batch_size : Z) (epochs : nat) (seed : option Z)
        (use_patches : bool) (corpus : list (image_pair A)) :
  (forall s, trainval_data shard interleave _parse_image_fn b bucket_name
                           prefix res use_patches s = Some (corpus, s)) ->
  (0 < batch_size)%Z ->
  let T := skip val_size (permuted g e seed corpus) in
  let V := take val_size (permuted g e seed corpus) in
  exists train test val,
    load_dataset_from_gcs shard interleave _parse_image_fn g e b bucket_name
                          prefix res val_size batch_size epochs seed use_patches
    = Some (train, test, val) /\
    settled T V (initial_state (image_pair A)) /\
    forall s, settled T V s ->
      (exists out s',
         train s = Some (out, s') /\ settled T V s' /\
         (0 < epochs -> caches s' TrainCache = Some T) /\
         iterations s' SplitShuffle
         = iterations s SplitShuffle + fills epochs (caches s TrainCache) /\
         exists per_epoch,
           length per_epoch = epochs /\ out = concat per_epoch /\
           Forall (augmented_epoch T) per_epoch) /\
      (exists out s',
         val s = Some (out, s') /\ settled T V s' /\
         (0 < epochs -> caches s' ValCache = Some V) /\
         iterations s' SplitShuffle
         = iterations s SplitShuffle + fills epochs (caches s ValCache) /\
         exists per_epoch,
           length per_epoch = epochs /\ out = concat per_epoch /\
           Forall (plain_epoch V) per_epoch).
Proof.
  intros Hsrc Hbatch T V.
  destruct (@load_streams A Proto shard interleave _parse_image_fn g e b
              bucket_name prefix res val_size batch_size epochs seed
              use_patches corpus Hsrc Hbatch)
    as (train & test & val & Eload & Htrain & Hval & _).
  exists train, test, val. split; [exact Eload|].
  split; [split; now left|].
  intros s [HsT HsV]. split.
  - destruct (Htrain s HsT) as (out & s' & E & Hinv & Hpos & Hother & Hit & Hep).
    exists out, s'. repeat split; trivial.
    unfold settled. fold T V. now rewrite Hother.
  - destruct (Hval s HsV) as (out & s' & E & Hinv & Hpos & Hother & Hit & Hep).
    exists out, s'. repeat split; trivial.
    unfold settled. fold T V. now rewrite Hother.
Qed.

(** C9, witness: four records, validation size 1, batches of 2 and two
    epochs; after both training epochs the cache holds the three
    un-augmented training pairs and the split shuffle has run once. *)
Lemma split_fixed_across_epochs_witness :
  exists train test val out s',
    load_dataset_from_gcs Scenario.shard (@concat _) Scenario.parse
                          Scenario.gen Scenario.ent Scenario.one_shard
                          "bucket"%string "reds"%string (3, 4) 1 2 2 (Some 42%Z) false
    = Some (train, test, val) /\
    train (initial_state _) = Some (out, s') /\
    caches s' TrainCache
    = Some (skip 1 (permuted Scenario.gen Scenario.ent (Some 42%Z) Scenario.records)) /\
    iterations s' SplitShuffle = 1.
Proof.
  destruct (@split_fixed_across_epochs
              nat _ Scenario.shard (@concat _) Scenario.parse
              Scenario.gen Scenario.ent Scenario.one_shard
              "bucket"%string "reds"%string (3, 4) 1%Z 2%Z 2 (Some 42%Z) false Scenario.records)
    as (train & test & val & Eload & Hinit & Hrun).
  - intros s. reflexivity.
  - lia.
  - destruct (Hrun _ Hinit) as [(out & s' & E & _ & Hc & Hit & _) _].
    exists train, test, val, out, s'.
    split; [exact Eload|]. split; [exact E|]. split; [apply Hc; lia|].
    exact Hit.
Defined.

(** C8 (amended).  When the store lists no object under either prefix
    and the batch size is positive, building the datasets raises nothing
    and the training, validation and test streams are empty. *)
Theorem empty_listing_is_not_reported
        (A Proto : Type) (shard : string -> option (list Proto))
        (interleave : list (list Proto) -> list Proto)
        (_parse_image_fn : nat * nat -> Proto -> option (image_pair A))
        (g : generator) (e : entropy) (b : Lister.bucket)
        (bucket_name prefix : string) (res : nat * nat)
        (val_size batch_size : Z) (epochs : nat) (seed : option Z)
        (use_patches : bool) :
  (forall ls, Permutation (interleave ls) (concat ls)) ->
  Lister.list_blobs b (prefix ++ "/train")%string = [] ->
  Lister.list_blobs b (prefix ++ "/test")%string = [] ->
  (0 < batch_size)%Z ->
  exists train test val,
    load_dataset_from_gcs shard interleave _parse_image_fn g e b bucket_name
                          prefix res val_size batch_size epochs seed use_patches
    = Some (train, test, val) /\
    option_map fst (train (initial_state _)) = Some [] /\
    option_map fst (val (initial_state _)) = Some [] /\
    match test with
    | inl unbatched => option_map fst (unbatched (initial_state _)) = Some []
    | inr batched => option_map fst (batched (initial_state _)) = Some []
    end.
Proof.
  intros Hint Htrain Htest Hbatch.
  assert (Hnil : interleave [] = []).
  { apply Permutation_nil, Permutation_sym, (Hint []). }
  assert (Hsrc : forall s, trainval_data shard interleave _parse_image_fn b
                             bucket_name prefix res use_patches s = Some ([], s)).
  { intros s. unfold trainval_data, parsed, ds_map, TFRecordDataset,
      extract_patches_from_dataset, Lister.tf_trainval.
    rewrite Htrain. destruct use_patches; cbn; rewrite Hnil; reflexivity. }
  destruct (@load_streams A Proto shard interleave _parse_image_fn g e b
              bucket_name prefix res val_size batch_size epochs seed
              use_patches [] Hsrc Hbatch)
    as (train & test & val & Eload & Htr & Hva & Hte).
  exists train, test, val. split; [exact Eload|].
  change (permuted g e seed (@nil (image_pair A))) with (@nil (image_pair A)) in *.
  rewrite skip_nil in Htr. rewrite take_nil in Hva.
  split; [|split].
  - destruct (Htr (initial_state _) (or_introl eq_refl))
      as (out & s' & E & _ & _ & _ & _ & per & _ & -> & Hall).
    rewrite E. cbn. f_equal. apply concat_all_nil.
    revert Hall. apply Forall_impl. intros bs [(l & Hl & Hp) Hne].
    inversion Hl; subst. now apply nonempty_batches_of_nothing.
  - destruct (Hva (initial_state _) (or_introl eq_refl))
      as (out & s' & E & _ & _ & _ & _ & per & _ & -> & Hall).
    rewrite E. cbn. f_equal. apply concat_all_nil.
    revert Hall. apply Forall_impl. intros bs [Hp Hne].
    now apply nonempty_batches_of_nothing.
  - subst test. unfold test_data, parsed, ds_map, TFRecordDataset,
      Lister.tf_test. rewrite Htest.
    destruct use_patches; cbn; rewrite Hnil; cbn.
    + reflexivity.
    + unfold batch. destruct (Z.leb_spec batch_size 0); [lia|reflexivity].
Qed.

(** C8, witness: the bucket without objects. *)
Lemma empty_listing_is_not_reported_witness :
  exists train test val,
    load_dataset_from_gcs Scenario.shard (@concat _) Scenario.parse
                          Scenario.gen Scenario.ent Scenario.no_shard
                          "bucket"%string "reds"%string (3, 4) 1 2 2 (Some 42%Z) false
    = Some (train, test, val) /\
    option_map fst (train (initial_state _)) = Some [] /\
    option_map fst (val (initial_state _)) = Some [].
Proof.
  destruct (@empty_listing_is_not_reported
              nat _ Scenario.shard (@concat _) Scenario.parse
              Scenario.gen Scenario.ent Scenario.no_shard
              "bucket"%string "reds"%string (3, 4) 1%Z 2%Z 2 (Some 42%Z) false)
    as (train & test & val & Eload & Htr & Hva & _).
  - intros ls. reflexivity.
  - reflexivity.
  - reflexivity.
  - lia.
  - exists train, test, val. auto.
Defined.

(** C8 as stated fails: with a bucket that lists nothing the function
    returns its three datasets, and iterating them yields nothing and
    raises nothing. *)
Lemma empty_listing_raises_nothing :
  Lister.tf_trainval "bucket"%string "reds"%string Scenario.no_shard = [] /\
  Lister.tf_test "bucket"%string "reds"%string Scenario.no_shard = [] /\
  match load_dataset_from_gcs Scenario.shard (@concat _) Scenario.parse
                              Scenario.gen Scenario.ent Scenario.no_shard
                              "bucket"%string "reds"%string (3, 4) 1 2 2 (Some 42%Z) false with
  | Some (train, _, val) =>
      option_map fst (train (initial_state _)) = Some [] /\
      option_map fst (val (initial_state _)) = Some []
  | None => False
  end.
Proof. repeat split. Qed.

End PipelineFacts.

(** ** Offline corpus construction: one generator shared by two workers *)

Module CifarFacts.
Import Cifar.

Section SharedGenerator.
Variable Img : Type.

Lemma scaled_samples_differ (x y : Q) :
  ~ (x == y)%Q -> (0 + (3 - 0) * x)%Q <> (0 + (3 - 0) * y)%Q.
Proof.
  intros Hxy E. apply Hxy.
  assert (Eq : (0 + (3 - 0) * x == 0 + (3 - 0) * y)%Q) by (rewrite E; reflexivity).
  lra.
Qed.

(** The results are matched to their subsets by the identity of the
    future, so the order of completion does not matter. *)
Lemma collection_ignores_completion_order
      (train_set test_set : list Img) (sample42 : nat -> Q)
      (np_global : RandomState) (schedule : list worker) (normalize : bool) :
  preproc_cifar train_set test_set sample42 np_global schedule
                [TrainBuild; TestBuild] normalize
  = preproc_cifar train_set test_set sample42 np_global schedule
                  [TestBuild; TrainBuild] normalize.
Proof.
  unfold preproc_cifar.
  destruct (run_pool schedule _ _ _) as [[tr te] h]. reflexivity.
Qed.

(** C10 (the code departs from it).  Both workers draw from the one
    [RandomState(42)]: with one image per subset, the worker that runs
    first takes the first sample, so two runs with the same seed that
    differ only in the interleaving of the workers blur the same image
    with different standard deviations. *)
Theorem shared_generator_depends_on_schedule
        (a b : Img) (sample42 : nat -> Q) (np_global : RandomState) :
  ~ (sample42 0%nat == sample42 1%nat)%Q ->
  let run1 := preproc_cifar [a] [b] sample42 np_global
                            [TrainBuild; TestBuild] [TrainBuild; TestBuild] false in
  let run2 := preproc_cifar [a] [b] sample42 np_global
                            [TestBuild; TrainBuild] [TrainBuild; TestBuild] false in
  trainX run1 = Some [GaussianBlur a (0 + (3 - 0) * sample42 0%nat)%Q] /\
  testX run1 = Some [GaussianBlur b (0 + (3 - 0) * sample42 1%nat)%Q] /\
  trainX run2 = Some [GaussianBlur a (0 + (3 - 0) * sample42 1%nat)%Q] /\
  testX run2 = Some [GaussianBlur b (0 + (3 - 0) * sample42 0%nat)%Q] /\
  trainX run1 <> trainX run2 /\ testX run1 <> testX run2.
Proof.
  intros Hdiff run1 run2.
  assert (E1 : trainX run1 = Some [GaussianBlur a (0 + (3 - 0) * sample42 0%nat)%Q])
    by reflexivity.
  assert (E2 : testX run1 = Some [GaussianBlur b (0 + (3 - 0) * sample42 1%nat)%Q])
    by reflexivity.
  assert (E3 : trainX run2 = Some [GaussianBlur a (0 + (3 - 0) * sample42 1%nat)%Q])
    by reflexivity.
  assert (E4 : testX run2 = Some [GaussianBlur b (0 + (3 - 0) * sample42 0%nat)%Q])
    by reflexivity.
  repeat split; trivial.
  - rewrite E1, E3. pose proof (scaled_samples_differ Hdiff) as Hne.
    congruence.
  - rewrite E2, E4. pose proof (scaled_samples_differ Hdiff) as Hne.
    congruence.
Qed.

End SharedGenerator.

(** C10, evaluated: two one-image subsets and the samples 0, 1/10, ... *)
Lemma shared_generator_depends_on_schedule_witness :
  trainX (preproc_cifar [1] [2] tenths idle
                        [TrainBuild; TestBuild] [TrainBuild; TestBuild] false)
  <> trainX (preproc_cifar [1] [2] tenths idle
                           [TestBuild; TrainBuild] [TrainBuild; TestBuild] false).
Proof.
  apply (@shared_generator_depends_on_schedule nat 1 2 tenths idle).
  vm_compute. discriminate.
Defined.

End CifarFacts.

(** ** Tiler and Reconstructor: cropping, smaller grids and failures *)

Module TilerEdge.
Import Tiler TilerFacts Crop.

Section WithDtype.
Variable A : Type.
Implicit Types t B : image A.

Lemma grid_blocks_shape_within h w c ph pw t :
  has_shape h w c t -> 3 * ph <= h -> 4 * pw <= w ->
  Forall (has_shape ph pw c) (grid_blocks ph pw t).
Proof.
  intros Ht Hh Hw. unfold grid_blocks. cbn [seq map concat app].
  repeat (apply Forall_cons; [eapply block_shape; [exact Ht | lia | lia]|]).
  apply Forall_nil.
Qed.

(** What [extract_patches] computes when the patch grid of the image is
    3 x 4: the twelve blocks if there are three channels, a reshape
    failure otherwise. *)
Lemma extract_patches_within h w c ph pw t :
  has_shape h w c t -> 0 < ph -> 0 < pw ->
  h / 3 = ph -> w / 4 = pw -> h / ph = 3 -> w / pw = 4 ->
  extract_patches (h, w) t
  = if c =? 3 then Some (grid_blocks ph pw t) else None.
Proof.
  intros Ht Hph Hpw E3 E4 Er Ec.
  assert (Hh : 3 * ph <= h).
  { rewrite <- Er at 1. rewrite Nat.mul_comm. apply Nat.Div0.mul_div_le. }
  assert (Hw : 4 * pw <= w).
  { rewrite <- Ec at 1. rewrite Nat.mul_comm. apply Nat.Div0.mul_div_le. }
  destruct (shape_dims Ht) as (Hht & Hwd & _); try lia.
  unfold extract_patches. cbn [fst snd]. rewrite E3, E4.
  unfold tf_image_extract_patches.
  destruct (Nat.eqb_spec ph 0) as [?|_]; [lia|].
  destruct (Nat.eqb_spec pw 0) as [?|_]; [lia|].
  cbn [orb obind]. rewrite Hht, Hwd, Er, Ec.
  pose proof (@grid_blocks_shape_within h w c ph pw t Ht Hh Hw) as Hsh.
  assert (Hflat : concat (map (fun r => map (fun k => concat (concat (block ph pw t r k)))
                                       (seq 0 4)) (seq 0 3))
                  = map (fun B => concat (concat B)) (grid_blocks ph pw t))
    by reflexivity.
  rewrite Hflat. unfold tf_reshape4.
  assert (Hall : Forall (fun l => length l = ph * pw * c)
                   (map (fun B => concat (concat B)) (grid_blocks ph pw t))).
  { apply Forall_map. revert Hsh; apply Forall_impl.
    intros B HB. exact (flat_block_length HB). }
  rewrite (concat_length_const Hall), length_map.
  change (length (grid_blocks ph pw t)) with 12.
  destruct (Nat.eqb_spec c 3) as [->|Hc].
  - replace (12 * (ph * pw * 3)) with (12 * ph * pw * 3) by lia.
    rewrite Nat.eqb_refl. f_equal.
    change 12 with (length (map (fun B : image A => concat (concat B))
                                (grid_blocks ph pw t))) at 1.
    rewrite (chunks_concat Hall), map_map.
    clear Hall Hflat. induction Hsh as [|B Bs HB _ IH]; simpl; trivial.
    rewrite IH. f_equal. exact (reshape_block HB).
  - destruct (Nat.eqb_spec (12 * (ph * pw * c)) (12 * ph * pw * 3)) as [E|_];
      [|reflexivity].
    exfalso. apply Hc.
    assert (E' : (12 * ph * pw) * c = (12 * ph * pw) * 3) by lia.
    apply Nat.mul_cancel_l in E'; trivial. nia.
Qed.

Lemma glue_row_prefixes (X : Type) (k n : nat) (R : list (list X)) :
  map (fun y => concat (map (fun c => nth y (map (slice (c * n) n) R) [])
                            (seq 0 k)))
      (seq 0 (length R))
  = map (firstn (k * n)) R.
Proof.
  induction R as [|row R IH]; trivial.
  cbn [length seq map]. f_equal.
  - cbn [nth]. apply concat_slices.
  - rewrite <- seq_shift, map_map. exact IH.
Qed.

Lemma nth_error_grid ph pw t i j :
  i < 3 -> j < 4 ->
  nth_error (grid_blocks ph pw t) (i * 4 + j) = Some (block ph pw t i j).
Proof.
  intros Hi Hj.
  assert (Hi' : i = 0 \/ i = 1 \/ i = 2) by lia.
  assert (Hj' : j = 0 \/ j = 1 \/ j = 2 \/ j = 3) by lia.
  destruct Hi' as [-> | [-> | ->]]; destruct Hj' as [-> | [-> | [-> | ->]]];
    reflexivity.
Qed.

Lemma column_prefix_shape h w c n t :
  has_shape h w c t -> n <= w -> has_shape h n c (map (firstn n) t).
Proof.
  intros [Hh Hrows] Hn; split.
  - now rewrite length_map.
  - apply Forall_map. revert Hrows; apply Forall_impl.
    intros row [Hw Hpx]; split.
    + rewrite length_firstn. lia.
    + apply (Forall_slice 0 n Hpx).
Qed.

Lemma concat_row_prefix h w c ph pw t i n :
  has_shape h w c t -> 0 < ph -> 0 < pw ->
  i * ph + ph <= h -> S n * pw <= w ->
  tf_concat_axis1 (map (fun k => block ph pw t i k) (seq 0 (S n)))
  = Some (map (firstn (S n * pw)) (slice (i * ph) ph t)).
Proof.
  intros Ht Hph Hpw Hi Hn.
  assert (Hb : forall k, In k (seq 0 (S n)) ->
               height (block ph pw t i k) = ph /\ depth (block ph pw t i k) = c).
  { intros k Hk. apply in_seq in Hk.
    assert (HB : has_shape ph pw c (block ph pw t i k))
      by (eapply block_shape; [exact Ht | lia | nia]).
    destruct (shape_dims HB) as (? & _ & ?); auto. }
  unfold tf_concat_axis1.
  set (ts := map (fun k => block ph pw t i k) (seq 0 (S n))).
  assert (Ets : ts = block ph pw t i 0 :: map (fun k => block ph pw t i k) (seq 1 n))
    by reflexivity.
  rewrite Ets. cbv beta iota. rewrite <- Ets. unfold ts. clear ts Ets.
  destruct (Hb 0) as [Hh0 Hd0]; [apply in_seq; lia|].
  rewrite Hh0, Hd0.
  assert (Hall : forallb (fun B => (height B =? ph) && (depth B =? c))
                         (map (fun k => block ph pw t i k) (seq 0 (S n))) = true).
  { apply forallb_forall. intros B HB. apply in_map_iff in HB.
    destruct HB as (k & <- & Hk). destruct (Hb k Hk) as [-> ->].
    now rewrite !Nat.eqb_refl. }
  rewrite Hall. f_equal.
  destruct (slice_shape (i * ph) ph Ht Hi) as [Hlen _].
  rewrite <- Hlen at 1. rewrite <- (glue_row_prefixes (S n) pw).
  apply map_ext. intros y. now rewrite map_map.
Qed.

(** Reconstructing the twelve blocks with a grid shape of at most 3 x 4
    glues the blocks of the top-left corner. *)
Lemma reconstruct_prefix h w c ph pw t R C :
  has_shape h w c t -> 0 < ph -> 0 < pw -> 3 * ph <= h -> 4 * pw <= w ->
  1 <= R <= 3 -> 1 <= C <= 4 ->
  reconstruct_image (grid_blocks ph pw t) (R, C)
  = Some (top_left (R * ph) (C * pw) t).
Proof.
  intros Ht Hph Hpw Hh Hw HR HC. unfold reconstruct_image. cbn [fst snd].
  destruct C as [|n]; [lia|].
  rewrite (@mapM_total _ _ _ (fun i => map (firstn (S n * pw)) (slice (i * ph) ph t))).
  2:{ apply Forall_forall. intros i Hi. apply in_seq in Hi.
      rewrite (@mapM_total _ _ _ (fun j => block ph pw t i j)).
      - cbn [obind]. apply (@concat_row_prefix h w c ph pw t i n Ht); trivial; nia.
      - apply Forall_forall. intros j Hj. apply in_seq in Hj.
        apply nth_error_grid; lia. }
  cbn [obind]. destruct R as [|m]; [lia|].
  assert (Hs : forall i, In i (seq 0 (S m)) ->
               has_shape ph (S n * pw) c
                         (map (firstn (S n * pw)) (slice (i * ph) ph t))).
  { intros i Hi. apply in_seq in Hi.
    apply (@column_prefix_shape ph w c (S n * pw)); [|nia].
    apply (slice_shape _ _ Ht). nia. }
  unfold tf_concat_axis0.
  set (rows := map (fun i => map (firstn (S n * pw)) (slice (i * ph) ph t))
                   (seq 0 (S m))).
  assert (Erows : rows = map (firstn (S n * pw)) (slice (0 * ph) ph t)
                         :: map (fun i => map (firstn (S n * pw)) (slice (i * ph) ph t))
                                (seq 1 m))
    by reflexivity.
  rewrite Erows. cbv beta iota. rewrite <- Erows. unfold rows. clear rows Erows.
  destruct (shape_dims (Hs 0 ltac:(apply in_seq; lia))) as (_ & Hw0 & Hd0); try nia.
  rewrite Hw0, Hd0.
  assert (Hall : forallb (fun B => (width B =? S n * pw) && (depth B =? c))
                   (map (fun i => map (firstn (S n * pw)) (slice (i * ph) ph t))
                        (seq 0 (S m))) = true).
  { apply forallb_forall. intros B HB. apply in_map_iff in HB.
    destruct HB as (i & <- & Hi).
    destruct (shape_dims (Hs i Hi)) as (_ & -> & ->); try nia.
    now rewrite !Nat.eqb_refl. }
  rewrite Hall. f_equal. unfold top_left.
  rewrite <- (concat_slices ph (S m) t), concat_map, map_map. reflexivity.
Qed.

Lemma mapM_fails (X Y : Type) (f : X -> option Y) (l : list X) (x : X) :
  In x l -> f x = None -> mapM f l = None.
Proof.
  induction l as [|y l IH]; intros Hin Hx; [contradiction|].
  cbn [mapM]. destruct Hin as [->|Hin].
  - now rewrite Hx.
  - destruct (f y); cbn [obind]; trivial. now rewrite IH.
Qed.

End WithDtype.

Section Properties.
Variable A : Type.

Lemma cropped_dims H W :
  H mod 3 < H / 3 -> W mod 4 < W / 4 ->
  0 < H / 3 /\ 0 < W / 4 /\ H / (H / 3) = 3 /\ W / (W / 4) = 4 /\
  3 * (H / 3) = H - H mod 3 /\ 4 * (W / 4) = W - W mod 4.
Proof.
  intros Hr Hc.
  pose proof (Nat.div_mod_eq H 3) as EH. pose proof (Nat.div_mod_eq W 4) as EW.
  repeat split; try lia.
  - symmetry. apply (Nat.div_unique H (H / 3) 3 (H mod 3)); lia.
  - symmetry. apply (Nat.div_unique W (W / 4) 4 (W mod 4)); lia.
Qed.

(** X1.  Tiling an image whose sides are multiples of 3 and 4 and
    reconstructing with a grid shape (R, C) of at most (3, 4) returns
    the top-left corner of R x C patches, not the image. *)
Theorem reconstruct_smaller_grid (H W R C : nat) (t : image A) :
  0 < H -> 0 < W -> H mod 3 = 0 -> W mod 4 = 0 ->
  has_shape H W 3 t -> 1 <= R <= 3 -> 1 <= C <= 4 ->
  tile_then_reconstruct (H, W) t (R, C)
  = Some (top_left (R * (H / 3)) (C * (W / 4)) t).
Proof.
  intros HH HW H3 W4 Ht HR HC.
  destruct (@cropped_dims H W) as (Hph & Hpw & Er & Ec & EH & EW);
    [pose proof (Nat.div_mod_eq H 3); lia | pose proof (Nat.div_mod_eq W 4); lia |].
  unfold tile_then_reconstruct.
  rewrite (@extract_patches_within A H W 3 (H / 3) (W / 4) t) by auto.
  cbn [Nat.eqb obind].
  apply (@reconstruct_prefix A H W 3); trivial; lia.
Qed.

(** X2.  VALID padding: when the sides are not multiples of 3 and 4
    (and the remainders are smaller than the patch sides), tiling raises
    nothing; the last [H mod 3] rows and [W mod 4] columns are dropped,
    and reconstruction returns the image without them. *)
Theorem valid_padding_crops (H W : nat) (t : image A) :
  has_shape H W 3 t -> H mod 3 < H / 3 -> W mod 4 < W / 4 ->
  tile_then_reconstruct (H, W) t (3, 4)
  = Some (top_left (H - H mod 3) (W - W mod 4) t).
Proof.
  intros Ht Hr Hc.
  destruct (@cropped_dims H W Hr Hc) as (Hph & Hpw & Er & Ec & EH & EW).
  unfold tile_then_reconstruct.
  rewrite (@extract_patches_within A H W 3 (H / 3) (W / 4) t) by auto.
  cbn [Nat.eqb obind]. rewrite <- EH, <- EW.
  apply (@reconstruct_prefix A H W 3); trivial; lia.
Qed.


(** X4.  [reconstruct_image] fails when the grid shape has a zero side
    (nothing to concatenate) and when the last patch it indexes,
    [(R - 1) * 4 + C - 1], is beyond the patches it was given. *)
Theorem reconstruct_out_of_range (ps : list (image A)) (R C : nat) :
  R = 0 \/ C = 0 \/ length ps < (R - 1) * 4 + C ->
  reconstruct_image ps (R, C) = None.
Proof.
  intros Hcase. unfold reconstruct_image. cbn [fst snd].
  destruct R as [|m]; [reflexivity|].
  destruct C as [|n].
  - rewrite (@mapM_fails _ _ _ (seq 0 (S m)) 0); trivial.
    left; reflexivity.
  - destruct Hcase as [?|[?|Hlen]]; try discriminate.
    rewrite (@mapM_fails _ _ _ (seq 0 (S m)) m); trivial.
    + apply in_seq; lia.
    + rewrite (@mapM_fails _ _ _ (seq 0 (S n)) n); trivial.
      * apply in_seq; lia.
      * apply nth_error_None. cbn [Nat.sub] in Hlen.
        rewrite Nat.sub_0_r in Hlen. lia.
Qed.

End Properties.

(** X1, witness: a 3 x 8 image and the grid shape (2, 3). *)
Lemma reconstruct_smaller_grid_witness :
  tile_then_reconstruct (3, 8) (ramp 3 8) (2, 3) = Some (top_left 2 6 (ramp 3 8)).
Proof.
  apply (@reconstruct_smaller_grid nat 3 8 2 3 (ramp 3 8)); try lia;
    try reflexivity.
  split; [reflexivity|]. repeat constructor.
Defined.

(** X2, witness: a 10 x 17 image loses its last row and its last column. *)
Lemma valid_padding_crops_witness :
  tile_then_reconstruct (10, 17) (ramp 10 17) (3, 4)
  = Some (top_left 9 16 (ramp 10 17)).
Proof.
  apply (@valid_padding_crops nat 10 17 (ramp 10 17)).
  - split; [reflexivity|]. repeat constructor.
  - cbn. lia.
  - cbn. lia.
Defined.


(** X4, witness: twelve patches and the grid shape (4, 1). *)
Lemma reconstruct_out_of_range_witness :
  reconstruct_image (grid_blocks 1 1 (ramp 3 4)) (4, 1) = None.
Proof.
  apply reconstruct_out_of_range. right; right. cbn. lia.
Defined.

End TilerEdge.

(** ** Splitter: how far the 50-element buffer reaches, and oversized splits *)

Module SplitEdge.
Import TfData TfList Pipeline Epochs ShuffleFacts SplitterFacts.

Section Window.
Variable X : Type.

Lemma in_firstn_nth_error (m : nat) (l : list X) (x : X) :
  In x (firstn m l) -> exists k, k < m /\ nth_error l k = Some x.
Proof.
  revert l; induction m as [|m IH]; intros [|y l] Hin; simpl in Hin;
    try contradiction.
  destruct Hin as [->|Hin].
  - exists 0. split; [lia | reflexivity].
  - destruct (IH l Hin) as (k & Hk & E). exists (S k). split; [lia | exact E].
Qed.

(** Output number [k] of the shuffle was in the buffer or among the
    first inputs that had entered it by then. *)
Lemma shuffle_go_window (buffer_size : nat) (draw : nat -> nat) :
  0 < buffer_size ->
  forall (input : list X) (i : nat) (buf : list X) (k : nat) (x : X),
    nth_error (shuffle_go buffer_size draw i buf input) k = Some x ->
    In x (buf ++ firstn (k + (buffer_size - length buf)) input).
Proof.
  intros Hbs. induction input as [|y rest IH]; intros i buf k x Hk;
    cbn [shuffle_go] in Hk.
  - apply nth_error_In in Hk. apply in_or_app. left.
    revert Hk. apply Permutation_in. now apply drain_perm.
  - destruct (length buf <? buffer_size) eqn:E.
    + apply Nat.ltb_lt in E. apply IH in Hk.
      rewrite length_app in Hk. cbn [length] in Hk.
      replace (k + (buffer_size - length buf))
        with (S (k + (buffer_size - (length buf + 1)))) by lia.
      cbn [firstn]. rewrite <- app_assoc in Hk. exact Hk.
    + apply Nat.ltb_ge in E.
      destruct (pick (draw i mod length buf) buf) as [[z buf']|] eqn:Ep.
      * pose proof (pick_perm _ _ Ep) as Hp.
        assert (Hsub : forall v, In v buf' -> In v buf).
        { intros v Hv. apply (Permutation_in _ Hp). now right. }
        assert (Hlen : length buf' + 1 = length buf).
        { apply Permutation_length in Hp. cbn [length] in Hp. lia. }
        replace (buffer_size - length buf) with 0 by lia.
        destruct k as [|k]; cbn [nth_error] in Hk.
        -- injection Hk as <-. apply in_or_app. left.
           apply (Permutation_in _ Hp). now left.
        -- apply IH in Hk. rewrite length_app in Hk. cbn [length] in Hk.
           replace (buffer_size - (length buf' + 1)) with 0 in Hk by lia.
           cbn [Nat.add firstn]. rewrite Nat.add_0_r in *.
           apply in_app_or in Hk. destruct Hk as [Hk|Hk].
           ++ apply in_app_or in Hk. destruct Hk as [Hk|[<-|[]]].
              ** apply in_or_app. left. now apply Hsub.
              ** apply in_or_app. right. now left.
           ++ apply in_or_app. right. now right.
      * destruct buf; [cbn [length] in E; lia | discriminate].
Qed.

Lemma permuted_window (g : generator) (e : entropy) (seed : option Z)
      (corpus : list X) (k : nat) (x : X) :
  nth_error (permuted g e seed corpus) k = Some x ->
  In x (firstn (k + 50) corpus).
Proof.
  intros Hk. unfold permuted, shuffle in Hk.
  apply shuffle_go_window in Hk; [|lia]. exact Hk.
Qed.

End Window.

Lemma in_firstn_seq (m a n i : nat) : In i (firstn m (seq a n)) -> i < a + m.
Proof.
  revert a n; induction m as [|m IH]; intros a [|n] Hin; simpl in Hin;
    try contradiction.
  destruct Hin as [<-|Hin]; [lia|]. apply IH in Hin. lia.
Qed.

(** X5.  The split shuffle only mixes within its buffer of 50: with a
    validation size that is not negative, every member of Validation is
    one of the first [val_size + 49] elements of the corpus, and every
    later element is in Train. *)
Theorem validation_comes_from_the_head
        (g : generator) (e : entropy) (seed : option Z) (val_size : Z) (n : nat) :
  (0 <= val_size)%Z ->
  exists train val,
    Splitter g e val_size seed (from_list (seq 0 n)) (initial_state nat)
    = Some (train, val) /\
    (forall i, In i val -> i < Z.to_nat val_size + 49) /\
    (forall i, Z.to_nat val_size + 49 <= i < n -> In i train).
Proof.
  intros Hv. rewrite Splitter_eval.
  set (sh := permuted g e seed (seq 0 n)).
  exists (skip val_size sh), (take val_size sh). split; [reflexivity|].
  assert (Hval : forall i, In i (take val_size sh) -> i < Z.to_nat val_size + 49).
  { intros i Hi. unfold take in Hi.
    destruct (Z.ltb_spec val_size 0); [lia|].
    apply in_firstn_nth_error in Hi. destruct Hi as (k & Hk & E).
    apply permuted_window in E. apply in_firstn_seq in E. lia. }
  split; [exact Hval|].
  intros i Hi.
  assert (Hin : In i (take val_size sh ++ skip val_size sh)).
  { rewrite take_skip. apply (Permutation_in i (Permutation_sym (shuffle_perm _ _ _))).
    apply in_seq. lia. }
  apply in_app_or in Hin. destruct Hin as [Hin|Hin]; trivial.
  apply Hval in Hin. lia.
Qed.

(** X5, witness: 200 indices and a validation size of 10. *)
Lemma validation_comes_from_the_head_witness :
  exists train val,
    Splitter Scenario.gen Scenario.ent 10 (Some 42%Z) (from_list (seq 0 200))
             (initial_state nat)
    = Some (train, val) /\
    (forall i, In i val -> i < 59) /\
    (forall i, 59 <= i < 200 -> In i train).
Proof.
  apply (@validation_comes_from_the_head Scenario.gen Scenario.ent
           (Some 42%Z) 10%Z 200).
  lia.
Defined.

(** X6.  A validation size that is negative or not smaller than the
    corpus leaves Train empty and puts the whole corpus into
    Validation; nothing is raised. *)
Theorem oversized_validation_empties_train
        (P : Type) (g : generator) (e : entropy) (seed : option Z)
        (val_size : Z) (corpus : list P) :
  (val_size < 0 \/ Z.of_nat (length corpus) <= val_size)%Z ->
  exists val,
    Splitter g e val_size seed (from_list corpus) (initial_state P)
    = Some ([], val) /\
    Permutation val corpus.
Proof.
  intros Hv. rewrite Splitter_eval.
  set (sh := permuted g e seed corpus).
  assert (Hperm : Permutation sh corpus) by apply shuffle_perm.
  pose proof (Permutation_length Hperm) as Hlen.
  exists sh. split; [|exact Hperm].
  unfold skip, take. destruct (Z.ltb_spec val_size 0); [reflexivity|].
  rewrite skipn_all2, firstn_all2 by lia. reflexivity.
Qed.

(** X6, witness: four records and a validation size of 4. *)
Lemma oversized_validation_empties_train_witness :
  exists val,
    Splitter Scenario.gen Scenario.ent 4 (Some 42%Z)
             (from_list Scenario.records) (initial_state _)
    = Some ([], val) /\
    Permutation val Scenario.records.
Proof.
  apply (@oversized_validation_empties_train _ Scenario.gen Scenario.ent
           (Some 42%Z) 4%Z Scenario.records).
  right. cbn. lia.
Defined.

End SplitEdge.

(** ** The returned streams: test data, failures and stream lengths *)

Module PipelineEdge.
Import TfData TfList Pipeline Epochs ShuffleFacts BatcherFacts PipelineFacts.

Lemma batch_layout (X : Type) (batch_size : Z) (l : list X) :
  (0 < batch_size)%Z ->
  let n := Z.to_nat batch_size in
  exists bs,
    batch batch_size l = Some bs /\ concat bs = l /\
    length bs = length l / n + (if length l mod n =? 0 then 0 else 1) /\
    Forall (fun x => 0 < length x <= n) bs.
Proof.
  intros Hb n. assert (Hn : 0 < n) by (unfold n; lia).
  pose proof (Nat.div_mod_eq (length l) n) as Hdm.
  pose proof (Nat.mod_upper_bound (length l) n ltac:(lia)) as Hr.
  set (q := length l / n) in *. set (r := length l mod n) in *.
  assert (Hlen : length l = q * n + r) by lia.
  destruct (batch_total l Hb) as (bs & Eb & Hcat & _).
  exists bs. split; [exact Eb|]. split; [exact Hcat|].
  unfold batch in Eb. destruct (Z.leb_spec batch_size 0); [lia|].
  fold n in Eb. rewrite (@batch_go_shape X q n r) in Eb by (auto; lia).
  injection Eb as <-. split.
  - rewrite length_app, chunks_length. destruct (r =? 0); cbn [length]; lia.
  - apply Forall_app; split.
    + generalize (chunks_full q n l ltac:(lia)). apply Forall_impl.
      intros x Hx. lia.
    + destruct (Nat.eqb_spec r 0); constructor; [|constructor].
      rewrite length_skipn. lia.
Qed.

Lemma Forall_concat_all (X : Type) (Q : X -> Prop) (ls : list (list X)) :
  Forall (Forall Q) ls -> Forall Q (concat ls).
Proof.
  induction 1 as [|l ls Hl _ IH]; cbn [concat]; [constructor|].
  apply Forall_app; split; assumption.
Qed.

Section Load.
Variables A Proto : Type.
Variable shard : string -> option (list Proto).
Variable interleave : list (list Proto) -> list Proto.
Variable _parse_image_fn : nat * nat -> Proto -> option (image_pair A).
Variable g : generator.
Variable e : entropy.
Variable b : Lister.bucket.
Variables bucket_name prefix : string.
Variable res : nat * nat.
Variables val_size batch_size : Z.
Variable epochs : nat.
Variable seed : option Z.
Variable use_patches : bool.

(** X7.  The test stream is the parsed test records in reading order:
    it is not shuffled, flipped, tiled, cached or repeated, iterating it
    changes no state, and it is batched exactly when patches are off. *)
Theorem test_stream_is_plain (recs : list (list Proto))
        (imgs : list (image_pair A)) :
  (0 < batch_size)%Z ->
  mapM shard (Lister.tf_test bucket_name prefix b) = Some recs ->
  mapM (_parse_image_fn res) (interleave recs) = Some imgs ->
  exists train test val,
    load_dataset_from_gcs shard interleave _parse_image_fn g e b bucket_name
                          prefix res val_size batch_size epochs seed use_patches
    = Some (train, test, val) /\
    forall s,
      match test with
      | inl unbatched => use_patches = true /\ unbatched s = Some (imgs, s)
      | inr batched =>
          use_patches = false /\
          exists bs, batched s = Some (bs, s) /\ concat bs = imgs
      end.
Proof.
  intros Hbatch Hread Hparse. unfold load_dataset_from_gcs.
  rewrite !(ds_batch_ok Hbatch). cbn [obind].
  assert (Htest : forall s, test_data shard interleave _parse_image_fn b
                              bucket_name prefix res s = Some (imgs, s)).
  { intros s. unfold test_data, parsed, ds_map, TFRecordDataset.
    rewrite Hread. cbn [obind fst snd]. rewrite Hparse. reflexivity. }
  destruct use_patches; cbn [negb option_map obind];
    (do 3 eexists; split; [reflexivity|]); intros s.
  - split; [reflexivity | apply Htest].
  - split; [reflexivity|]. rewrite Htest. cbn [obind fst snd].
    destruct (batch_total imgs Hbatch) as (bs & Eb & Hcat & _).
    exists bs. rewrite Eb. split; [reflexivity | exact Hcat].
Qed.


Variable corpus : list (image_pair A).

Lemma train_step_layout (source : dataset (image_pair A) (image_pair A))
      (s : tf_state (image_pair A)) :
  (forall s0, source s0 = Some (corpus, s0)) ->
  (0 < batch_size)%Z ->
  let T := skip val_size (permuted g e seed corpus) in
  let n := Z.to_nat batch_size in
  caches s TrainCache = None \/ caches s TrainCache = Some T ->
  exists out s',
    (r <- train_reshuffled g e val_size seed source s ;;
     bt <- batch batch_size (fst r) ;;
     Some (bt, snd r)) = Some (out, s') /\
    caches s' TrainCache = Some T /\
    caches s' ValCache = caches s ValCache /\
    iterations s' SplitShuffle
    = iterations s SplitShuffle + fills 1 (caches s TrainCache) /\
    (length out = length T / n + (if length T mod n =? 0 then 0 else 1) /\
     length (concat out) = length T /\
     Forall (fun x => 0 < length x <= n) out).
Proof.
  intros Hsrc Hbatch T n Hs.
  destruct (@train_cached_spec _ g e val_size seed source corpus Hsrc s Hs)
    as (s1 & E1 & Hc & Ho & Hi).
  unfold train_reshuffled, ds_shuffle, train_augmented, ds_map_random.
  rewrite E1. cbn [obind fst snd].
  match goal with
  | |- context [batch batch_size ?l] =>
      destruct (batch_layout l Hbatch) as (bs & Eb & Hcat & Hcount & Hsz);
      rewrite Eb;
      assert (Hl : length l = length T)
        by (rewrite (Permutation_length (shuffle_perm _ _ _));
            rewrite !length_map, !length_combine, !length_seq,
              !length_map, !length_combine, !length_seq, !Nat.min_id;
            reflexivity)
  end.
  cbn [obind]. exists bs. eexists. split; [reflexivity|].
  cbn. rewrite Hl in Hcount. rewrite Hcat.
  repeat split; trivial.
Qed.

(** X9.  The training stream holds, for every epoch, the members of
    Train in full batches plus one partial batch when the size of Train
    is not a multiple of the batch size: [epochs] times
    [ceil(|Train| / batch_size)] batches, none empty, none larger than
    the batch size, [epochs * |Train|] elements in all. *)
Theorem training_stream_length :
  (forall s, trainval_data shard interleave _parse_image_fn b bucket_name
                           prefix res use_patches s = Some (corpus, s)) ->
  (0 < batch_size)%Z ->
  let T := skip val_size (permuted g e seed corpus) in
  let n := Z.to_nat batch_size in
  exists train test val out s',
    load_dataset_from_gcs shard interleave _parse_image_fn g e b bucket_name
                          prefix res val_size batch_size epochs seed use_patches
    = Some (train, test, val) /\
    train (initial_state _) = Some (out, s') /\
    length out
    = epochs * (length T / n + (if length T mod n =? 0 then 0 else 1)) /\
    length (concat out) = epochs * length T /\
    Forall (fun x => 0 < length x <= n) out.
Proof.
  intros Hsrc Hbatch T n.
  set (per := length T / n + (if length T mod n =? 0 then 0 else 1)).
  set (Ep := fun bs : list (list (image_pair A)) =>
               length bs = per /\ length (concat bs) = length T /\
               Forall (fun x => 0 < length x <= n) bs).
  assert (Hrun : forall d,
            d = (fun s => r <- train_reshuffled g e val_size seed
                            (trainval_data shard interleave _parse_image_fn b
                               bucket_name prefix res use_patches) s ;;
                          bt <- batch batch_size (fst r) ;;
                          Some (bt, snd r)) ->
            exists out s',
              ds_repeat epochs d (initial_state _) = Some (out, s') /\
              length out = epochs * per /\
              length (concat out) = epochs * length T /\
              Forall (fun x => 0 < length x <= n) out).
  { intros d ->.
    destruct (@repeat_spec _ _ TrainCache ValCache T _ Ep
                (fun s0 Hs0 => @train_step_layout _ s0 Hsrc Hbatch Hs0)
                epochs (initial_state _) (or_introl eq_refl))
      as (out & s' & E & _ & _ & _ & _ & per_epoch & Hlen & -> & Hall).
    exists (concat per_epoch), s'. split; [exact E|].
    split; [|split].
    - rewrite (@concat_length_const _ per).
      + now rewrite Hlen.
      + revert Hall. apply Forall_impl. now intros bs (? & _ & _).
    - rewrite concat_concat_map, (@concat_length_const _ (length T)).
      + now rewrite length_map, Hlen.
      + apply Forall_map. revert Hall. apply Forall_impl. now intros bs (_ & ? & _).
    - apply Forall_concat_all. revert Hall. apply Forall_impl.
      now intros bs (_ & _ & ?). }
  unfold load_dataset_from_gcs. rewrite !(ds_batch_ok Hbatch). cbn [obind].
  destruct use_patches eqn:Epatch; cbn [negb option_map obind].
  - destruct (Hrun _ eq_refl) as (out & s' & E & H1 & H2 & H3).
    do 3 eexists. exists out, s'. split; [reflexivity|]. auto.
  - destruct (Hrun _ eq_refl) as (out & s' & E & H1 & H2 & H3).
    do 3 eexists. exists out, s'. split; [reflexivity|]. auto.
Qed.

End Load.

(** X7, witness: one test shard of four records, batches of two. *)
Lemma test_stream_is_plain_witness :
  exists train test val,
    load_dataset_from_gcs Scenario.shard (@concat _) Scenario.parse
                          Scenario.gen Scenario.ent Scenario2.both_shards
                          "bucket"%string "reds"%string (3, 4) 1 2 2
                          (Some 42%Z) false
    = Some (train, test, val) /\
    match test with
    | inl _ => False
    | inr batched =>
        exists bs, batched (initial_state _) = Some (bs, initial_state _) /\
                   concat bs = Scenario.records
    end.
Proof.
  destruct (@test_stream_is_plain
              nat _ Scenario.shard (@concat _) Scenario.parse
              Scenario.gen Scenario.ent Scenario2.both_shards
              "bucket"%string "reds"%string (3, 4) 1%Z 2%Z 2 (Some 42%Z) false
              [Scenario.records] Scenario.records)
    as (train & test & val & Eload & Htest); try reflexivity.
  exists train, test, val. split; [exact Eload|].
  specialize (Htest (initial_state _)).
  destruct test as [d|d]; destruct Htest as [Hp Hd]; [discriminate | exact Hd].
Defined.


(** X9, witness: three training pairs in batches of two for two
    epochs: four batches, six elements. *)
Lemma training_stream_length_witness :
  exists train test val out s',
    load_dataset_from_gcs Scenario.shard (@concat _) Scenario.parse
                          Scenario.gen Scenario.ent Scenario.one_shard
                          "bucket"%string "reds"%string (3, 4) 1 2 2
                          (Some 42%Z) false
    = Some (train, test, val) /\
    train (initial_state _) = Some (out, s') /\
    length out = 4 /\ length (concat out) = 6.
Proof.
  destruct (@training_stream_length
              nat _ Scenario.shard (@concat _) Scenario.parse
              Scenario.gen Scenario.ent Scenario.one_shard
              "bucket"%string "reds"%string (3, 4) 1%Z 2%Z 2 (Some 42%Z) false
              Scenario.records)
    as (train & test & val & out & s' & Eload & E & Hn & Hc & _).
  - intros s. reflexivity.
  - lia.
  - exists train, test, val, out, s'.
    split; [exact Eload|]. split; [exact E|]. split; [exact Hn | exact Hc].
Defined.

End PipelineEdge.

(** ** Augmentor: shapes and the algebra of the flips *)

Module AugmentorEdge.
Import Tiler Augmentor.

Section WithDtype.
Variable A : Type.
Implicit Types t : image A.

Lemma flip_left_right_shape h w c t :
  has_shape h w c t -> has_shape h w c (flip_left_right t).
Proof.
  intros [Hh Hrows]; split.
  - unfold flip_left_right. now rewrite length_map.
  - apply Forall_map. revert Hrows; apply Forall_impl.
    intros row [Hw Hpx]; split.
    + now rewrite length_rev.
    + now apply Forall_rev.
Qed.

Lemma flip_up_down_shape h w c t :
  has_shape h w c t -> has_shape h w c (flip_up_down t).
Proof.
  intros [Hh Hrows]; split.
  - unfold flip_up_down. now rewrite length_rev.
  - now apply Forall_rev.
Qed.

Lemma flip_left_right_involutive t : flip_left_right (flip_left_right t) = t.
Proof.
  unfold flip_left_right. rewrite map_map.
  induction t as [|row t IH]; cbn [map]; trivial.
  now rewrite rev_involutive, IH.
Qed.

Lemma flips_commute t :
  flip_up_down (flip_left_right t) = flip_left_right (flip_up_down t).
Proof. unfold flip_up_down, flip_left_right. now rewrite map_rev. Qed.

(** X10.  Augmentation keeps the shape: whatever the draw, both outputs
    of either flip function have the shape of the inputs, so a pair
    stays a pair of equally shaped images. *)
Theorem flips_preserve_shape (u : Q) (h w c : nat) (blur sharp : image A) :
  has_shape h w c blur -> has_shape h w c sharp ->
  has_shape h w c (fst (_random_horizontal_flip u blur sharp)) /\
  has_shape h w c (snd (_random_horizontal_flip u blur sharp)) /\
  has_shape h w c (fst (_random_vertical_flip u blur sharp)) /\
  has_shape h w c (snd (_random_vertical_flip u blur sharp)).
Proof.
  intros Hb Hs. unfold _random_horizontal_flip, _random_vertical_flip, tf_cond.
  destruct (negb (Qle_bool u (1 # 2))); cbn [fst snd];
    (split; [|split; [|split]]);
    try apply flip_left_right_shape; try apply flip_up_down_shape;
    assumption.
Qed.

(** X11.  The flips lose nothing and do not depend on their order:
    applying a flip function again with the same draw restores the pair,
    and flipping horizontally then vertically gives the same pair as
    flipping vertically then horizontally with the same two draws. *)
Theorem flips_undo_and_commute (u v : Q) (blur sharp : image A) :
  (let r := _random_horizontal_flip u blur sharp in
   _random_horizontal_flip u (fst r) (snd r) = (blur, sharp)) /\
  (let r := _random_vertical_flip u blur sharp in
   _random_vertical_flip u (fst r) (snd r) = (blur, sharp)) /\
  (let r := _random_horizontal_flip u blur sharp in
   let r' := _random_vertical_flip v blur sharp in
   _random_vertical_flip v (fst r) (snd r)
   = _random_horizontal_flip u (fst r') (snd r')).
Proof.
  unfold _random_horizontal_flip, _random_vertical_flip, tf_cond.
  destruct (negb (Qle_bool u (1 # 2))), (negb (Qle_bool v (1 # 2)));
    cbn [fst snd]; repeat split;
    rewrite ?flip_left_right_involutive, ?flips_commute; trivial;
    unfold flip_up_down; now rewrite !rev_involutive.
Qed.

End WithDtype.

(** X10, witness: a 3 x 4 pair and a draw of 3/4. *)
Lemma flips_preserve_shape_witness :
  has_shape 3 4 3 (fst (_random_horizontal_flip (3 # 4) (ramp 3 4) (ramp 3 4))) /\
  has_shape 3 4 3 (fst (_random_vertical_flip (3 # 4) (ramp 3 4) (ramp 3 4))).
Proof.
  assert (Hs : has_shape 3 4 3 (ramp 3 4))
    by (split; [reflexivity | repeat constructor]).
  destruct (@flips_preserve_shape nat (3 # 4) 3 4 3 (ramp 3 4) (ramp 3 4) Hs Hs)
    as (H1 & _ & H3 & _).
  split; assumption.
Defined.

End AugmentorEdge.

(** ** Shard Lister: which blobs are listed and how they are named *)

Module ListerEdge.
Import Lister.
Local Open Scope string_scope.

Lemma prefix_head (a : ascii) (p s : string) :
  String.prefix (String a p) s = true ->
  exists s', s = String a s' /\ String.prefix p s' = true.
Proof.
  destruct s as [|c s']; cbn [String.prefix]; [discriminate|].
  destruct (ascii_dec a c) as [<-|]; [|discriminate].
  intros Hp. now exists s'.
Qed.

Lemma train_test_prefixes_exclude (p s : string) :
  String.prefix (p ++ "/train") s = true ->
  String.prefix (p ++ "/test") s = true -> False.
Proof.
  revert s; induction p as [|a p IH]; intros s Htr Hte.
  - cbn [append] in Htr, Hte.
    apply prefix_head in Htr. destruct Htr as (s1 & -> & Htr).
    apply prefix_head in Hte. destruct Hte as (s1' & E & Hte).
    injection E as <-.
    apply prefix_head in Htr. destruct Htr as (s2 & -> & Htr).
    apply prefix_head in Hte. destruct Hte as (s2' & E & Hte).
    injection E as <-.
    apply prefix_head in Htr. destruct Htr as (s3 & -> & _).
    apply prefix_head in Hte. destruct Hte as (s3' & E & _).
    discriminate.
  - cbn [append] in Htr, Hte.
    apply prefix_head in Htr. destruct Htr as (s1 & -> & Htr).
    apply prefix_head in Hte. destruct Hte as (s1' & E & Hte).
    injection E as <-. eauto.
Qed.

Lemma startswith_sep_of_prefix (p s : string) :
  p <> "" -> String.prefix p s = true -> startswith_sep s = startswith_sep p.
Proof.
  destruct p as [|a p]; [congruence|]. intros _ Hp.
  apply prefix_head in Hp. destruct Hp as (s' & -> & _). reflexivity.
Qed.

Lemma append_inv_head (a x y : string) : a ++ x = a ++ y -> x = y.
Proof.
  induction a as [|c a IH]; cbn [append]; trivial.
  intros E. injection E as E. auto.
Qed.

Lemma append_nonempty (p q : string) : q <> "" -> p ++ q <> "".
Proof. destruct p; cbn [append]; trivial. discriminate. Qed.

Lemma startswith_sep_append (p q : string) :
  startswith_sep (p ++ q)
  = if String.eqb p "" then startswith_sep q else startswith_sep p.
Proof. destruct p; reflexivity. Qed.

(** Joining two names that both start, or both do not start, with the
    separator to the same root is injective when the root starts with
    another character. *)
Lemma os_path_join_inj (root x y : string) :
  startswith_sep root = false ->
  startswith_sep x = startswith_sep y ->
  os_path_join root x = os_path_join root y -> x = y.
Proof.
  intros Hroot Hxy. unfold os_path_join. rewrite <- Hxy.
  destruct (startswith_sep x); trivial.
  destruct (String.eqb root "" || endswith_sep root); intros E.
  - exact (@append_inv_head _ _ _ E).
  - apply append_inv_head in E. now apply (@append_inv_head "/").
Qed.

(** X12.  No shard is read both as training and as test data: no blob
    is listed under both prefixes, and the two lists of file names handed
    to the readers share no entry. *)
Theorem train_and_test_listings_are_disjoint
        (bucket_name prefix : string) (b : bucket) :
  (forall name, ~ (In name (list_blobs b (prefix ++ "/train")) /\
                   In name (list_blobs b (prefix ++ "/test")))) /\
  (forall f, ~ (In f (tf_trainval bucket_name prefix b) /\
                In f (tf_test bucket_name prefix b))).
Proof.
  split.
  - intros name [Htr Hte]. unfold list_blobs in *.
    apply filter_In in Htr, Hte.
    exact (@train_test_prefixes_exclude prefix name (proj2 Htr) (proj2 Hte)).
  - intros f [Htr Hte]. unfold tf_trainval, tf_test, list_blobs in *.
    apply in_map_iff in Htr, Hte.
    destruct Htr as (x & Ex & Hx). destruct Hte as (y & Ey & Hy).
    apply filter_In in Hx, Hy. destruct Hx as [_ Hx]. destruct Hy as [_ Hy].
    assert (Hsx : startswith_sep x = startswith_sep (prefix ++ "/train")).
    { apply startswith_sep_of_prefix; trivial.
      apply append_nonempty. discriminate. }
    assert (Hsy : startswith_sep y = startswith_sep (prefix ++ "/test")).
    { apply startswith_sep_of_prefix; trivial.
      apply append_nonempty. discriminate. }
    assert (Hsame : startswith_sep x = startswith_sep y).
    { rewrite Hsx, Hsy, !startswith_sep_append.
      destruct (String.eqb prefix ""); reflexivity. }
    assert (E : x = y).
    { apply (@os_path_join_inj ("gs://" ++ bucket_name)); trivial. congruence. }
    subst y. exact (@train_test_prefixes_exclude prefix x Hx Hy).
Qed.

(** X13.  A prefix that is empty or starts with the separator makes
    every listed blob name start with the separator, and [os.path.join]
    then drops the [gs://bucket_name] root: the readers are handed the
    bare blob names. *)
Theorem rooted_prefix_drops_the_bucket
        (bucket_name prefix : string) (b : bucket) :
  prefix = "" \/ startswith_sep prefix = true ->
  tf_trainval bucket_name prefix b = list_blobs b (prefix ++ "/train") /\
  tf_test bucket_name prefix b = list_blobs b (prefix ++ "/test").
Proof.
  intros Hp.
  assert (Hkeep : forall q names,
            q <> "" -> startswith_sep (prefix ++ q) = true ->
            Forall (fun s => String.prefix (prefix ++ q) s = true) names ->
            map (fun f => os_path_join ("gs://" ++ bucket_name) f) names = names).
  { intros q names Hq Hs. induction 1 as [|x l Hx _ IH]; cbn [map]; trivial.
    rewrite IH. f_equal. unfold os_path_join.
    rewrite (@startswith_sep_of_prefix (prefix ++ q) x), Hs; trivial.
    now apply append_nonempty. }
  assert (Hsep : forall q, startswith_sep q = true ->
                 startswith_sep (prefix ++ q) = true).
  { intros q Hq. rewrite startswith_sep_append.
    destruct Hp as [->|Hp]; [exact Hq|].
    destruct (String.eqb prefix ""); [exact Hq | exact Hp]. }
  unfold tf_trainval, tf_test, list_blobs. split.
  - apply (Hkeep "/train"); [discriminate | now apply Hsep |].
    apply Forall_forall. intros x Hx. now apply filter_In in Hx.
  - apply (Hkeep "/test"); [discriminate | now apply Hsep |].
    apply Forall_forall. intros x Hx. now apply filter_In in Hx.
Qed.

(** X14.  With a prefix that is not empty and does not start with the
    separator, every file name handed to the readers is
    [gs://bucket_name], one separator (none if the bucket name ends with
    one) and the blob name. *)
Theorem relative_prefix_is_rooted_in_the_bucket
        (bucket_name prefix : string) (b : bucket) :
  prefix <> "" -> startswith_sep prefix = false ->
  let sep := if endswith_sep ("gs://" ++ bucket_name) then "" else "/" in
  tf_trainval bucket_name prefix b
  = map (fun name => "gs://" ++ bucket_name ++ sep ++ name)
        (list_blobs b (prefix ++ "/train")) /\
  tf_test bucket_name prefix b
  = map (fun name => "gs://" ++ bucket_name ++ sep ++ name)
        (list_blobs b (prefix ++ "/test")).
Proof.
  intros Hne Hrel sep.
  assert (Hjoin : forall q names,
            q <> "" ->
            Forall (fun s => String.prefix (prefix ++ q) s = true) names ->
            map (fun f => os_path_join ("gs://" ++ bucket_name) f) names
            = map (fun name => "gs://" ++ bucket_name ++ sep ++ name) names).
  { intros q names Hq. induction 1 as [|x l Hx _ IH]; cbn [map]; trivial.
    rewrite IH. f_equal. unfold os_path_join.
    rewrite (@startswith_sep_of_prefix (prefix ++ q) x); trivial;
      [|now apply append_nonempty].
    rewrite startswith_sep_append.
    destruct (String.eqb_spec prefix ""); [contradiction|]. rewrite Hrel.
    change (String.eqb ("gs://" ++ bucket_name) "") with false.
    cbn [orb]. unfold sep.
    destruct (endswith_sep ("gs://" ++ bucket_name)); cbn [append]; trivial. }
  unfold tf_trainval, tf_test, list_blobs. split.
  - apply (Hjoin "/train"); [discriminate|].
    apply Forall_forall. intros x Hx. now apply filter_In in Hx.
  - apply (Hjoin "/test"); [discriminate|].
    apply Forall_forall. intros x Hx. now apply filter_In in Hx.
Qed.

(** X13, witness: the empty prefix. *)
Lemma rooted_prefix_drops_the_bucket_witness :
  tf_trainval "bucket" "" rooted_store = ["/train/a.tfrecords"] /\
  tf_test "bucket" "" rooted_store = ["/test/a.tfrecords"].
Proof.
  apply (@rooted_prefix_drops_the_bucket "bucket" "" rooted_store).
  left. reflexivity.
Defined.

(** X14, witness: the prefix [reds]. *)
Lemma relative_prefix_is_rooted_in_the_bucket_witness :
  tf_trainval "bucket" "reds" store_ab
  = ["gs://bucket/reds/train/a.tfrecords"; "gs://bucket/reds/train/b.tfrecords"].
Proof.
  destruct (@relative_prefix_is_rooted_in_the_bucket "bucket" "reds" store_ab)
    as [Htr _].
  - discriminate.
  - reflexivity.
  - exact Htr.
Defined.

End ListerEdge.

(** ** Offline corpus construction: what holds for every interleaving *)

Module CifarEdge.
Import Cifar CifarSpec.

Section WithImages.
Variable Img : Type.

Lemma ref_eqb_refl (r : ref) : ref_eqb r r = true.
Proof. now destruct r. Qed.





End WithImages.

Section Pool.
Variable Img : Type.
Variable sample42 : nat -> Q.

Lemma pool_invariant_swap (s1 s2 : list Img) (c : nat) (t1 t2 : task Img)
      (h : heap) :
  pool_invariant s1 s2 sample42 c t1 t2 h ->
  pool_invariant s2 s1 sample42 c t2 t1 h.
Proof.
  intros (Hs & Hc & Hr1 & Hr2 & H1 & H2 & Hp).
  repeat split; trivial.
  etransitivity; [apply Permutation_app_comm | exact Hp].
Qed.

Lemma task_step_keeps (s1 s2 : list Img) (c : nat) (t1 t2 t1' : task Img)
      (h h' : heap) :
  task_step t1 h = (t1', h') ->
  pool_invariant s1 s2 sample42 c t1 t2 h ->
  length (todo t1') = pred (length (todo t1)) /\
  exists c', pool_invariant s1 s2 sample42 c' t1' t2 h'.
Proof.
  intros E (Hs & Hc & Hr1 & Hr2 & H1 & H2 & Hp). unfold task_step in E.
  destruct (todo t1) as [|img rest] eqn:Etodo.
  - injection E as <- <-. rewrite Etodo. split; [reflexivity|].
    exists c. repeat split; trivial. now rewrite Etodo.
  - unfold gauss_blur, uniform in E. rewrite Hr1 in E. cbv zeta in E.
    injection E as <- <-. cbn [todo predictor rnd length pred].
    split; [reflexivity|]. exists (S c).
    unfold pool_invariant. cbn [todo predictor rnd]. rewrite ref_eqb_refl.
    cbn [samples consumed]. repeat split; trivial.
    + now rewrite Hc.
    + rewrite map_app, <- app_assoc. exact H1.
    + rewrite map_app. cbn [map sigma_of]. rewrite seq_S, map_app.
      cbn [map Nat.add]. rewrite Hs, Hc. fold (scaled sample42 c).
      rewrite <- app_assoc.
      etransitivity; [apply Permutation_app_head, Permutation_app_comm|].
      rewrite app_assoc. now apply Permutation_app_tail.
Qed.

Lemma finish_keeps (s1 s2 : list Img) (t2 : task Img) :
  forall (n c : nat) (t1 t1' : task Img) (h h' : heap),
    n = length (todo t1) ->
    finish n t1 h = (t1', h') ->
    pool_invariant s1 s2 sample42 c t1 t2 h ->
    todo t1' = [] /\ exists c', pool_invariant s1 s2 sample42 c' t1' t2 h'.
Proof.
  induction n as [|n IH]; intros c t1 t1' h h' Hn E Hinv; cbn [finish] in E.
  - injection E as <- <-. split; [|now exists c].
    destruct (todo t1); [reflexivity | discriminate].
  - destruct (task_step t1 h) as [ta ha] eqn:Es.
    destruct (task_step_keeps Es Hinv) as (Hlen & ca & Ha).
    apply (IH ca ta t1' ha h'); trivial. lia.
Qed.

Lemma run_pool_keeps (s1 s2 : list Img) (schedule : list worker) :
  forall (c : nat) (tr te tr' te' : task Img) (h h' : heap),
    run_pool schedule tr te h = (tr', te', h') ->
    pool_invariant s1 s2 sample42 c tr te h ->
    todo tr' = [] /\ todo te' = [] /\
    exists c', pool_invariant s1 s2 sample42 c' tr' te' h'.
Proof.
  induction schedule as [|w rest IH]; intros c tr te tr' te' h h' E Hinv;
    cbn [run_pool] in E.
  - destruct (finish (length (todo tr)) tr h) as [ta h1] eqn:E1.
    destruct (finish (length (todo te)) te h1) as [tb h2] eqn:E2.
    injection E as <- <- <-.
    destruct (finish_keeps eq_refl E1 Hinv) as (Hta & c1 & H1).
    destruct (finish_keeps eq_refl E2 (pool_invariant_swap H1))
      as (Htb & c2 & H2).
    split; [exact Hta|]. split; [exact Htb|].
    exists c2. now apply pool_invariant_swap.
  - destruct w.
    + destruct (task_step tr h) as [ta ha] eqn:Es.
      destruct (task_step_keeps Es Hinv) as (_ & ca & Ha).
      exact (IH ca ta te tr' te' ha h' E Ha).
    + destruct (task_step te h) as [tb hb] eqn:Es.
      destruct (task_step_keeps Es (pool_invariant_swap Hinv)) as (_ & cb & Hb).
      exact (IH cb tr tb tr' te' hb h' E (pool_invariant_swap Hb)).
Qed.

(** X16.  Whatever the interleaving of the two workers and whichever
    future completes first, each predictor holds one blur per image of
    its own subset, in the order of the subset, the targets are the
    subsets themselves, and the standard deviations used by the two
    workers together are the first [|train| + |test|] samples of the
    shared generator, each used once. *)
Theorem pool_keeps_results_aligned
        (train_set test_set : list Img) (np_global : RandomState)
        (schedule completed : list worker) :
  completed = [TrainBuild; TestBuild] \/ completed = [TestBuild; TrainBuild] ->
  let o := preproc_cifar train_set test_set sample42 np_global schedule
                         completed false in
  exists px py,
    trainX o = Some px /\ testX o = Some py /\
    trainY o = Some (map (@Target Img) train_set) /\
    testY o = Some (map (@Target Img) test_set) /\
    map (@source_of Img) px = map Some train_set /\
    map (@source_of Img) py = map Some test_set /\
    Permutation (map (@sigma_of Img) px ++ map (@sigma_of Img) py)
                (map (fun k => Some (scaled sample42 k))
                     (seq 0 (length train_set + length test_set))).
Proof.
  intros Hcompleted. cbv zeta. unfold preproc_cifar.
  match goal with
  | |- context [run_pool schedule ?a ?b ?h0] =>
      destruct (run_pool schedule a b h0) as [[tr te] h] eqn:E;
      assert (Hinit : pool_invariant train_set test_set sample42 0 a b h0)
        by (repeat split; constructor)
  end.
  destruct (run_pool_keeps _ E Hinit)
    as (Htr & Hte & c & (Hs & Hc & _ & _ & H1 & H2 & Hp)).
  rewrite Htr, app_nil_r in H1. rewrite Hte, app_nil_r in H2.
  assert (Hcount : c = length train_set + length test_set).
  { apply Permutation_length in Hp.
    rewrite length_app, !length_map, length_seq in Hp.
    apply (f_equal (@length _)) in H1, H2. rewrite !length_map in H1, H2. lia. }
  rewrite Hcount in Hp. exists (predictor tr), (predictor te).
  destruct Hcompleted as [-> | ->]; cbn [fold_left collect trainX trainY testX testY];
    repeat split; trivial.
Qed.

End Pool.

(** X16, witness: two images per subset and an alternating schedule. *)
Lemma pool_keeps_results_aligned_witness :
  exists px py,
    trainX (preproc_cifar [1; 2] [3; 4] tenths idle
                          [TestBuild; TrainBuild; TestBuild; TrainBuild]
                          [TestBuild; TrainBuild] false) = Some px /\
    testX (preproc_cifar [1; 2] [3; 4] tenths idle
                         [TestBuild; TrainBuild; TestBuild; TrainBuild]
                         [TestBuild; TrainBuild] false) = Some py /\
    map (@source_of nat) px = [Some 1; Some 2] /\
    map (@source_of nat) py = [Some 3; Some 4].
Proof.
  destruct (@pool_keeps_results_aligned nat tenths [1; 2] [3; 4] idle
              [TestBuild; TrainBuild; TestBuild; TrainBuild]
              [TestBuild; TrainBuild])
    as (px & py & E1 & E2 & _ & _ & H1 & H2 & _).
  - right. reflexivity.
  - exists px, py. auto.
Defined.

Section Sequential.
Variable Img : Type.

Lemma finish_is_preproc_subset :
  forall (n : nat) (t : task Img) (h : heap),
    n = length (todo t) ->
    finish n t h
    = ({| todo := [];
          predictor := predictor t ++ fst (preproc_subset (todo t) (rnd t) h);
          rnd := rnd t |},
       snd (preproc_subset (todo t) (rnd t) h)).
Proof.
  induction n as [|n IH]; intros [td pr rn] h Hn; cbn [todo predictor rnd] in *.
  - destruct td; [|discriminate]. cbn. now rewrite app_nil_r.
  - destruct td as [|img rest]; [discriminate|].
    cbn [finish]. unfold task_step. cbn [todo predictor rnd preproc_subset].
    destruct (gauss_blur rn img h) as [p h1].
    rewrite IH by (cbn [todo length] in *; lia).
    cbn [todo predictor rnd].
    destruct (preproc_subset rest rn h1) as [ps h2]. cbn [fst snd].
    now rewrite <- app_assoc.
Qed.

Lemma run_pool_when_train_is_done (tr : task Img) :
  todo tr = [] ->
  forall (rest : list worker) (te : task Img) (h : heap),
    run_pool rest tr te h
    = (tr, fst (finish (length (todo te)) te h),
       snd (finish (length (todo te)) te h)).
Proof.
  intros Htr. induction rest as [|w rest IH]; intros te h; cbn [run_pool].
  - rewrite Htr. cbn [length finish].
    now destruct (finish (length (todo te)) te h).
  - destruct w.
    + unfold task_step at 1. rewrite Htr. apply IH.
    + destruct (task_step te h) as [te1 h1] eqn:Es. rewrite IH.
      unfold task_step in Es. destruct (todo te) as [|img r] eqn:Etodo.
      * injection Es as <- <-. now rewrite Etodo.
      * cbn [length finish]. unfold task_step. rewrite Etodo.
        destruct (gauss_blur (rnd te) img h) as [p h']. injection Es as <- <-.
        reflexivity.
Qed.

Lemma run_pool_train_first :
  forall (n : nat) (tr te : task Img) (h : heap) (rest : list worker),
    n = length (todo tr) ->
    run_pool (repeat TrainBuild n ++ rest) tr te h
    = run_pool rest (fst (finish n tr h)) te (snd (finish n tr h)).
Proof.
  induction n as [|n IH]; intros tr te h rest Hn; cbn [repeat app finish].
  - reflexivity.
  - cbn [run_pool]. destruct (task_step tr h) as [t1 h1] eqn:Es.
    apply IH. unfold task_step in Es.
    destruct (todo tr) as [|img r]; [discriminate|].
    destruct (gauss_blur (rnd tr) img h). injection Es as <- <-.
    cbn [todo length] in *. lia.
Qed.

(** X17.  When the train worker runs all its loop iterations before the
    test worker runs any, the two predictors are those of calling
    [preproc_subset] on the train set and then on the test set with the
    same generator object: the test subset continues the sample stream
    where the train subset left it. *)
Theorem train_first_schedule_is_sequential
        (train_set test_set : list Img) (sample42 : nat -> Q)
        (np_global : RandomState) (rest completed : list worker) :
  completed = [TrainBuild; TestBuild] \/ completed = [TestBuild; TrainBuild] ->
  let o := preproc_cifar train_set test_set sample42 np_global
                         (repeat TrainBuild (length train_set) ++ rest)
                         completed false in
  let first := preproc_subset train_set (Some Rnd42)
                              (initial_heap sample42 np_global) in
  let second := preproc_subset test_set (Some Rnd42) (snd first) in
  trainX o = Some (fst first) /\ testX o = Some (fst second).
Proof.
  intros Hcompleted. cbv zeta. unfold preproc_cifar.
  fold (initial_heap sample42 np_global).
  rewrite run_pool_train_first by reflexivity.
  rewrite finish_is_preproc_subset by reflexivity.
  cbn [fst snd todo predictor rnd app].
  rewrite run_pool_when_train_is_done by reflexivity.
  rewrite finish_is_preproc_subset by reflexivity.
  cbn [fst snd todo predictor rnd app].
  destruct Hcompleted as [-> | ->];
    cbn [fold_left collect trainX trainY testX testY predictor]; split; reflexivity.
Qed.

End Sequential.

(** X17, witness: two images per subset, the train worker first. *)
Lemma train_first_schedule_is_sequential_witness :
  trainX (preproc_cifar [1; 2] [3; 4] tenths idle
                        ([TrainBuild; TrainBuild] ++ [TestBuild; TestBuild])
                        [TrainBuild; TestBuild] false)
  = Some (fst (preproc_subset [1; 2] (Some Rnd42) (initial_heap tenths idle))).
Proof.
  apply (@train_first_schedule_is_sequential nat [1; 2] [3; 4] tenths idle
           [TestBuild; TestBuild] [TrainBuild; TestBuild]).
  left. reflexivity.
Defined.

End CifarEdge.

(** ** The residual U-Net: which input shapes it can be built for *)

From Stdlib Require Import ZifyNat.

Module ResUNetFacts.
Import ResUNet.

Ltac div_lia := zify; Z.div_mod_to_equations; lia.

Lemma conv_output_length_1 (a : nat) : conv_output_length a 1 = a.
Proof. unfold conv_output_length. rewrite Nat.add_sub. apply Nat.div_1_r. Qed.

Lemma broadcast_same (a : nat) : broadcast a a = Some a.
Proof. unfold broadcast. now rewrite Nat.eqb_refl. Qed.

(** A down block of two convolutions with strides [[s; 1]] and one
    filter count divides height and width by [s], rounding up. *)
Lemma ResUDown_pair (k1 k2 f s h w c layer_idx : nat) (is_initial : bool)
      (names : list string) :
  s <> 0 ->
  ResUDown [k1; k2] [f; f] [s; 1] (h, w, c) layer_idx is_initial names
  = Some ((conv_output_length h s, conv_output_length w s, f),
          names ++ down_names layer_idx is_initial).
Proof.
  intros Hs. destruct s as [|s']; [contradiction|].
  destruct is_initial;
    cbv [ResUDown zip3 combine conv_loop gbind gret lift nth_error option_map
         Conv2D BatchNormalization Activation negb andb Nat.eqb Add down_names];
    rewrite !conv_output_length_1, !broadcast_same; cbn [obind];
    rewrite <- !app_assoc; reflexivity.
Qed.

(** An up block doubles height and width and needs the skip connection
    to have exactly the doubled size. *)
Lemma ResUUp_pair (k1 k2 f h w c hc wc cc layer_idx : nat) (names : list string) :
  ResUUp [k1; k2] [f; f] [1; 1] (h, w, c) (hc, wc, cc) layer_idx names
  = if (hc =? h * 2) && (wc =? w * 2)
    then Some ((hc, wc, f), names ++ up_names layer_idx)
    else None.
Proof.
  cbv [ResUUp zip3 combine conv_loop gbind gret lift nth_error option_map
       Conv2D Conv2DTranspose BatchNormalization Activation negb andb
       concatenate up_names].
  cbn [Nat.eqb].
  destruct (hc =? h * 2); [|reflexivity].
  destruct (wc =? w * 2); [|reflexivity].
  cbv [Add lift]. rewrite !conv_output_length_1, !Nat.mul_1_r, !broadcast_same.
  cbn [obind option_map]. rewrite <- !app_assoc. reflexivity.
Qed.

Ltac run_block :=
  unfold gbind at 1;
  first [ rewrite ResUDown_pair by discriminate | rewrite ResUUp_pair ];
  cbv beta iota.

Ltac split_cond :=
  match goal with
  | |- context [if (?a =? ?b) && (?c =? ?d) then _ else _] =>
      destruct (Nat.eqb_spec a b); [destruct (Nat.eqb_spec c d)|]; cbn [andb]
  end.

Ltac settle := first [reflexivity | exfalso; div_lia].

(** X18.  [ResUNet16] can be built exactly for inputs whose height and
    width are multiples of 8 (every skip connection then has twice the
    size of the tensor below it, and all layer names are distinct); the
    output has the height and width of the input and 3 channels.  For
    any other positive size a [concatenate] raises. *)
Theorem ResUNet16_needs_multiples_of_8 (H W C : nat) :
  0 < H -> 0 < W ->
  option_map fst (ResUNet16 (H, W, C))
  = if (H mod 8 =? 0) && (W mod 8 =? 0) then Some (H, W, 3) else None.
Proof.
  intros HH HW. unfold ResUNet16.
  do 4 run_block. rewrite !conv_output_length_1.
  unfold conv_output_length.
  destruct (Nat.eqb_spec (H mod 8) 0) as [EH|EH];
    destruct (Nat.eqb_spec (W mod 8) 0) as [EW|EW]; cbn [andb];
    (run_block; split_cond;
     [ run_block; split_cond;
       [ run_block; split_cond; [ | settle | settle ] | settle | settle ]
     | settle | settle ]);
    try (exfalso; div_lia).
  unfold gbind, ResUOut, Conv2D, Activation, Model, gbind.
  cbn [Nat.eqb]. rewrite !conv_output_length_1.
  match goal with
  | |- context [unique_names ?l] =>
      replace (unique_names l) with true by (vm_compute; reflexivity)
  end.
  reflexivity.
Qed.

(** X18, witness: the resolution 288 x 512 used for the REDS images. *)
Lemma ResUNet16_needs_multiples_of_8_witness :
  option_map fst (ResUNet16 (288, 512, 3)) = Some (288, 512, 3).
Proof.
  apply (@ResUNet16_needs_multiples_of_8 288 512 3); lia.
Defined.

(** X19.  A down block of two convolutions with strides [[s; 1]] and
    one filter count [f] turns a tensor of shape (h, w, c) into one of
    shape (ceil(h / s), ceil(w / s), f), and adds five layers, or seven
    when it is not the initial block. *)
Theorem down_block_divides_by_its_stride
        (k1 k2 f s h w c layer_idx : nat) (is_initial : bool)
        (names : list string) :
  s <> 0 ->
  exists added,
    ResUDown [k1; k2] [f; f] [s; 1] (h, w, c) layer_idx is_initial names
    = Some (((h + s - 1) / s, (w + s - 1) / s, f), names ++ added) /\
    length added = if is_initial then 5 else 7.
Proof.
  intros Hs. exists (down_names layer_idx is_initial).
  split; [now apply ResUDown_pair|]. now destruct is_initial.
Qed.

(** X19, witness: the second block of the encoder on a 288 x 512 input. *)
Lemma down_block_divides_by_its_stride_witness :
  exists added,
    ResUDown [3; 3] [128; 128] [2; 1] (288, 512, 64) 2 false []
    = Some ((144, 256, 128), [] ++ added) /\ length added = 7.
Proof.
  apply (@down_block_divides_by_its_stride 3 3 128 2 288 512 64 2 false []).
  discriminate.
Defined.

(** X20.  An up block doubles height and width by its transposed
    convolution and can only be built when the skip connection has
    exactly the doubled height and width; its output then has the shape
    of the skip connection with [f] channels, and any other skip size
    makes [concatenate] raise. *)
Theorem up_block_needs_doubled_skip
        (k1 k2 f h w c hc wc cc layer_idx : nat) (names : list string) :
  (hc = 2 * h /\ wc = 2 * w ->
   option_map fst (ResUUp [k1; k2] [f; f] [1; 1] (h, w, c) (hc, wc, cc)
                          layer_idx names) = Some (hc, wc, f)) /\
  (hc <> 2 * h \/ wc <> 2 * w ->
   ResUUp [k1; k2] [f; f] [1; 1] (h, w, c) (hc, wc, cc) layer_idx names = None).
Proof.
  rewrite ResUUp_pair. split.
  - intros [-> ->].
    rewrite !(Nat.mul_comm 2), !Nat.eqb_refl. reflexivity.
  - intros Hne.
    destruct (Nat.eqb_spec hc (h * 2)), (Nat.eqb_spec wc (w * 2));
      trivial; lia.
Qed.

End ResUNetFacts.

